(** * rclcpp [Node]: callback-group registry, entity binder and parameter store

    A shallow embedding of [rclcpp/include/rclcpp/node_impl.hpp].

    - [std::string] is [string]; [std::map<std::string, T>] is a
      [gmap string T] that is iterated in increasing key order
      ([map_items]), as [std::map] is;
    - [std::shared_ptr] / [std::weak_ptr] are addresses of heap
      allocations; an allocation is live while it is in the heap, and
      [weak_ptr::lock] fails exactly on the expired ones;
    - [size_t] is [Z] with the wrap-around at [2^64] written out;
    - member functions are computations in a state-and-exception monad
      over the [World] (middleware, heap of callback groups, nodes).  *)

From Stdlib Require Import ZArith String Ascii.
From stdpp Require Import base option list gmap strings sorting.


(** ** Strings *)

Module Str.

(** [s.find(pat)]: the position of the first occurrence, [None] for
    [npos]. *)
Definition find (pat s : string) : option nat := String.index 0 pat s.

(** [s.substr(pos)]: the source only calls it with [pos <= s.size()]
    (see [find_0_length]), where it does not throw. *)
Definition substr_from (pos : nat) (s : string) : string :=
  String.substring pos (String.length s - pos) s.

(** [s.substr(0, n)], where [n] may be [npos] (here [None]). *)
Definition substr_to (n : option nat) (s : string) : string :=
  match n with
  | None => s
  | Some n => String.substring 0 n s
  end.

(** [s.find_last_of(c)]. *)
Fixpoint find_last_of (c : ascii) (s : string) : option nat :=
  match s with
  | EmptyString => None
  | String a s' =>
      match find_last_of c s' with
      | Some i => Some (S i)
      | None => if Ascii.eqb a c then Some 0%nat else None
      end
  end.

(** [std::count(s.begin(), s.end(), c)]. *)
Fixpoint count (c : ascii) (s : string) : nat :=
  match s with
  | EmptyString => 0
  | String a s' => (if Ascii.eqb a c then 1 else 0) + count c s'
  end.

End Str.

(** ** Parameters *)

(** Modelled from the spec: [rcl_interfaces::ParameterType], whose message
    definition is not part of this file ("type: enum {NotSet, Bool, Int,
    Double, String, ...}"). *)
Inductive ParameterType :=
| PARAMETER_NOT_SET
| PARAMETER_BOOL
| PARAMETER_INTEGER
| PARAMETER_DOUBLE
| PARAMETER_STRING.

(** Modelled from the spec: the tagged union a parameter carries.  A double
    is kept as its bit pattern; nothing here computes with it. *)
Inductive ParameterValue :=
| NotSetValue
| BoolValue (b : bool)
| IntegerValue (i : Z)
| DoubleValue (bits : Z)
| StringValue (s : string).

(** Modelled from the spec: [rcl_interfaces::Parameter], the wire form of a
    (name, value) pair. *)
Record RclParameter := mkRclParameter {
  name : string;
  value : ParameterValue
}.

(** Modelled from the spec: [rclcpp::parameter::ParameterVariant]
    ("{name, type, value: tagged union over type}"). *)
Record ParameterVariant := mkParameterVariant {
  variant_name : string;
  variant_value : ParameterValue
}.

Definition get_type (v : ParameterVariant) : ParameterType :=
  match variant_value v with
  | NotSetValue => PARAMETER_NOT_SET
  | BoolValue _ => PARAMETER_BOOL
  | IntegerValue _ => PARAMETER_INTEGER
  | DoubleValue _ => PARAMETER_DOUBLE
  | StringValue _ => PARAMETER_STRING
  end.

Definition from_parameter (p : RclParameter) : ParameterVariant :=
  {| variant_name := name p; variant_value := value p |}.

Record SetParametersResult := mkSetParametersResult {
  successful : bool
}.

Record ParameterDescriptor := mkParameterDescriptor {
  descriptor_name : string;
  parameter_type : ParameterType
}.

Record ListParametersResult := mkListParametersResult {
  parameter_names : list string;
  parameter_prefixes : list string
}.

(** ** [std::map<std::string, ParameterVariant>] *)

Section ordered_map.
Context {V : Type}.

(** [std::less<std::string>] on the keys. *)
Definition key_le : relation (string * V) :=
  λ a b, String.leb a.1 b.1 = true.

#[global] Instance key_le_dec : RelDecision key_le.
Proof. intros a b. unfold key_le. apply _. Defined.

(** The entries in iteration order ([begin()] to [end()]). *)
Definition map_items (m : gmap string V) : list (string * V) :=
  merge_sort key_le (map_to_list m).

(** [m.insert(first, last)] over another map: keys already present keep
    their value. *)
Definition map_insert_range (m other : gmap string V) : gmap string V :=
  foldl (λ acc kv, match acc !! kv.1 with
                   | Some _ => acc
                   | None => <[kv.1 := kv.2]> acc
                   end) m (map_items other).

End ordered_map.

(** [std::any_of(names.cbegin(), names.cend(), pred)]. *)
Definition any_of {A} (l : list A) (pred : A → bool) : bool := existsb pred l.

(** ** The parameter store

    Every operation holds [mutex_] for its whole body, so it is a function
    from the map before the call to the map after it and the result. *)

Definition set_parameters (parameters_ : gmap string ParameterVariant)
    (parameters : list RclParameter)
    : gmap string ParameterVariant * list SetParametersResult :=
  foldl (λ '(parameters_, results) p,
           (<[name p := from_parameter p]> parameters_,
            results ++ [{| successful := true |}]))
        (parameters_, []) parameters.

(** The two locals of [set_parameters_atomically] that hold a map:
    [tmp_map] and the member [parameters_]. *)
Record atomic_frame := mkAtomicFrame {
  tmp_map : gmap string ParameterVariant;
  frame_parameters_ : gmap string ParameterVariant
}.

(** [for (auto p : parameters) tmp_map[p.name] = from_parameter(p);] *)
Definition atomic_stage (parameters : list RclParameter) (f : atomic_frame)
    : atomic_frame :=
  {| tmp_map := foldl (λ t p, <[name p := from_parameter p]> t)
                      (tmp_map f) parameters;
     frame_parameters_ := frame_parameters_ f |}.

(** [tmp_map.insert(parameters_.begin(), parameters_.end());] *)
Definition atomic_merge (f : atomic_frame) : atomic_frame :=
  {| tmp_map := map_insert_range (tmp_map f) (frame_parameters_ f);
     frame_parameters_ := frame_parameters_ f |}.

(** [std::swap(tmp_map, parameters_);] *)
Definition atomic_swap (f : atomic_frame) : atomic_frame :=
  {| tmp_map := frame_parameters_ f; frame_parameters_ := tmp_map f |}.

Definition set_parameters_atomically
    (parameters_ : gmap string ParameterVariant)
    (parameters : list RclParameter)
    : gmap string ParameterVariant * SetParametersResult :=
  let f := {| tmp_map := ∅; frame_parameters_ := parameters_ |} in
  let f := atomic_stage parameters f in
  let f := atomic_merge f in
  let f := atomic_swap f in
  (frame_parameters_ f, {| successful := true |}).

(** The lambda shared by the three getters: [name == kv.first]. *)
Definition requested (names : list string) (key : string) : bool :=
  any_of names (λ name, String.eqb name key).

Definition get_parameters (parameters_ : gmap string ParameterVariant)
    (names : list string) : list ParameterVariant :=
  foldl (λ results kv,
           if requested names kv.1 then results ++ [kv.2] else results)
        [] (map_items parameters_).

Definition describe_parameters (parameters_ : gmap string ParameterVariant)
    (names : list string) : list ParameterDescriptor :=
  foldl (λ results kv,
           if requested names kv.1
           then results ++ [{| descriptor_name := kv.1;
                               parameter_type := get_type kv.2 |}]
           else results)
        [] (map_items parameters_).

Definition get_parameter_types (parameters_ : gmap string ParameterVariant)
    (names : list string) : list ParameterType :=
  foldl (λ results kv,
           if requested names kv.1
           then results ++ [get_type kv.2]
           else results ++ [PARAMETER_NOT_SET])
        [] (map_items parameters_).

(** The lambda of [list_parameters].  [depth] is a [uint64_t]; the count is
    a [ptrdiff_t] that is never negative, so converting it for the
    comparison keeps its value. *)
Definition prefix_matches (key : string) (depth : N) (prefix : string) : bool :=
  if bool_decide (Str.find (prefix +:+ ".") key = Some 0%nat) then
    let length := String.length prefix in
    let substr := Str.substr_from length key in
    (N.of_nat (Str.count "."%char substr) <? depth)%N
  else false.

Definition list_parameters (parameters_ : gmap string ParameterVariant)
    (prefixes : list string) (depth : N) : list ListParametersResult :=
  foldl (λ results kv,
           if any_of prefixes (prefix_matches kv.1 depth) then
             let result := {| parameter_names := []; parameter_prefixes := [] |} in
             let result := {| parameter_names := parameter_names result ++ [kv.1];
                              parameter_prefixes := parameter_prefixes result |} in
             let last_separator := Str.find_last_of "."%char kv.1 in
             let prefix := Str.substr_to last_separator kv.1 in
             let result :=
               if bool_decide (prefix ∈ parameter_prefixes result) then result
               else {| parameter_names := parameter_names result;
                       parameter_prefixes := parameter_prefixes result ++ [prefix] |} in
             results ++ [result]
           else results)
        [] (map_items parameters_).

(** The names over all the records of a [list_parameters] result. *)
Definition listed_names (results : list ListParametersResult) : list string :=
  concat (parameter_names <$> results).

(** ** Heap objects *)

(** The identity of a heap allocation (the object a [shared_ptr] and the
    [weak_ptr]s made from it refer to).  Allocations are never reused: an
    expired [weak_ptr] stays expired. *)
Definition addr := nat.

Inductive CallbackGroupType := MutuallyExclusive | Reentrant.

(** Modelled from the spec: [rclcpp::callback_group::CallbackGroup] of
    callback_group.hpp, "{type, subscriptions, timers, clients, services}",
    each a collection of non-owning references. *)
Record CallbackGroup := mkCallbackGroup {
  type_ : CallbackGroupType;
  subscription_ptrs_ : list addr;
  timer_ptrs_ : list addr;
  service_ptrs_ : list addr;
  client_ptrs_ : list addr
}.

Definition new_CallbackGroup (group_type : CallbackGroupType) : CallbackGroup :=
  mkCallbackGroup group_type [] [] [] [].

Definition add_subscription (e : addr) (g : CallbackGroup) : CallbackGroup :=
  mkCallbackGroup (type_ g) (subscription_ptrs_ g ++ [e]) (timer_ptrs_ g)
                  (service_ptrs_ g) (client_ptrs_ g).

Definition add_timer (e : addr) (g : CallbackGroup) : CallbackGroup :=
  mkCallbackGroup (type_ g) (subscription_ptrs_ g) (timer_ptrs_ g ++ [e])
                  (service_ptrs_ g) (client_ptrs_ g).

Definition add_service (e : addr) (g : CallbackGroup) : CallbackGroup :=
  mkCallbackGroup (type_ g) (subscription_ptrs_ g) (timer_ptrs_ g)
                  (service_ptrs_ g ++ [e]) (client_ptrs_ g).

Definition add_client (e : addr) (g : CallbackGroup) : CallbackGroup :=
  mkCallbackGroup (type_ g) (subscription_ptrs_ g) (timer_ptrs_ g)
                  (service_ptrs_ g) (client_ptrs_ g ++ [e]).

(** [size_t] *)
Definition SIZE_MAX : Z := 2 ^ 64 - 1.
Definition size_t_incr (c : Z) : Z := (c + 1) mod 2 ^ 64.

(** The members of [Node] this file reads or writes.
    [callback_groups_] holds [weak_ptr]s, [default_callback_group_] is a
    [shared_ptr] (null, [None], until the constructor body assigns it). *)
Record Node := mkNode {
  name_ : string;
  context_ : addr;
  node_handle_ : option nat;
  callback_groups_ : list addr;
  default_callback_group_ : option addr;
  number_of_subscriptions_ : Z;
  number_of_timers_ : Z;
  number_of_services_ : Z;
  number_of_clients_ : Z;
  parameters_ : gmap string ParameterVariant
}.

Definition with_node_handle_ (h : option nat) (n : Node) : Node :=
  mkNode (name_ n) (context_ n) h (callback_groups_ n)
         (default_callback_group_ n) (number_of_subscriptions_ n)
         (number_of_timers_ n) (number_of_services_ n) (number_of_clients_ n)
         (parameters_ n).

Definition with_callback_groups_ (l : list addr) (n : Node) : Node :=
  mkNode (name_ n) (context_ n) (node_handle_ n) l
         (default_callback_group_ n) (number_of_subscriptions_ n)
         (number_of_timers_ n) (number_of_services_ n) (number_of_clients_ n)
         (parameters_ n).

Definition with_default_callback_group_ (g : option addr) (n : Node) : Node :=
  mkNode (name_ n) (context_ n) (node_handle_ n) (callback_groups_ n)
         g (number_of_subscriptions_ n)
         (number_of_timers_ n) (number_of_services_ n) (number_of_clients_ n)
         (parameters_ n).

Definition with_number_of_subscriptions_ (c : Z) (n : Node) : Node :=
  mkNode (name_ n) (context_ n) (node_handle_ n) (callback_groups_ n)
         (default_callback_group_ n) c
         (number_of_timers_ n) (number_of_services_ n) (number_of_clients_ n)
         (parameters_ n).

Definition with_number_of_timers_ (c : Z) (n : Node) : Node :=
  mkNode (name_ n) (context_ n) (node_handle_ n) (callback_groups_ n)
         (default_callback_group_ n) (number_of_subscriptions_ n)
         c (number_of_services_ n) (number_of_clients_ n)
         (parameters_ n).

Definition with_number_of_services_ (c : Z) (n : Node) : Node :=
  mkNode (name_ n) (context_ n) (node_handle_ n) (callback_groups_ n)
         (default_callback_group_ n) (number_of_subscriptions_ n)
         (number_of_timers_ n) c (number_of_clients_ n)
         (parameters_ n).

Definition with_number_of_clients_ (c : Z) (n : Node) : Node :=
  mkNode (name_ n) (context_ n) (node_handle_ n) (callback_groups_ n)
         (default_callback_group_ n) (number_of_subscriptions_ n)
         (number_of_timers_ n) (number_of_services_ n) c
         (parameters_ n).

Definition with_parameters_ (m : gmap string ParameterVariant) (n : Node) : Node :=
  mkNode (name_ n) (context_ n) (node_handle_ n) (callback_groups_ n)
         (default_callback_group_ n) (number_of_subscriptions_ n)
         (number_of_timers_ n) (number_of_services_ n) (number_of_clients_ n)
         m.

(** ** The world a call runs in *)

Record World := mkWorld {
  rmw_handles : nat;                      (* handles the middleware gave out *)
  next_addr : addr;                       (* the next fresh allocation *)
  groups : gmap addr CallbackGroup;       (* the live CallbackGroup objects *)
  nodes : list Node                       (* the Node objects; [this] is an index *)
}.

Definition initial : World := mkWorld 0 0 ∅ [].

Inductive exception := runtime_error (what : string).

(** How a call ends.  [Undefined] stands for a dereference of a null or
    dangling pointer. *)
Inductive outcome (A : Type) :=
| Returns (a : A)
| Throws (e : exception)
| Undefined.
Arguments Returns {A} a.
Arguments Throws {A} e.
Arguments Undefined {A}.

Definition M (A : Type) : Type := World → outcome A * World.

Definition ret {A} (a : A) : M A := λ w, (Returns a, w).

Definition bind {A B} (m : M A) (k : A → M B) : M B :=
  λ w, match m w with
       | (Returns a, w') => k a w'
       | (Throws e, w') => (Throws e, w')
       | (Undefined, w') => (Undefined, w')
       end.

Notation "'let*' x ':=' m 'in' k" := (bind m (λ x, k))
  (at level 10, x name, m at level 100, k at level 200).

Definition throw {A} (e : exception) : M A := λ w, (Throws e, w).

Definition undefined {A} : M A := λ w, (Undefined, w).

(** [*this] *)
Definition this (self : nat) : M Node :=
  λ w, match nodes w !! self with
       | Some n => (Returns n, w)
       | None => (Undefined, w)
       end.

Definition modify_this (self : nat) (f : Node → Node) : M unit :=
  λ w, match nodes w !! self with
       | Some n => (Returns tt, mkWorld (rmw_handles w) (next_addr w) (groups w)
                                        (<[self := f n]> (nodes w)))
       | None => (Undefined, w)
       end.

(** The middleware's [rmw_create_node], [rmw_create_publisher],
    [rmw_create_subscription], [rmw_create_client], [rmw_create_service]:
    each gives out a new opaque handle. *)
Definition rmw_create : M nat :=
  λ w, (Returns (rmw_handles w),
        mkWorld (S (rmw_handles w)) (next_addr w) (groups w) (nodes w)).

(** [T::make_shared(...)] of an entity or a context: a fresh allocation,
    owned by the [shared_ptr] that is returned. *)
Definition make_shared : M addr :=
  λ w, (Returns (next_addr w),
        mkWorld (rmw_handles w) (S (next_addr w)) (groups w) (nodes w)).

(** [CallbackGroup::SharedPtr(new CallbackGroup(group_type))] *)
Definition make_group (group_type : CallbackGroupType) : M addr :=
  λ w, (Returns (next_addr w),
        mkWorld (rmw_handles w) (S (next_addr w))
                (<[next_addr w := new_CallbackGroup group_type]> (groups w))
                (nodes w)).

(** [weak_group.lock()]: the object if it is live, null otherwise. *)
Definition lock (heap : gmap addr CallbackGroup) (weak_group : addr) : option addr :=
  match heap !! weak_group with
  | Some _ => Some weak_group
  | None => None
  end.

(** [group->add_x(ptr)] through a [shared_ptr]. *)
Definition call_on_group (group : option addr) (f : CallbackGroup → CallbackGroup)
    : M unit :=
  λ w, match group with
       | Some a =>
           match groups w !! a with
           | Some g => (Returns tt, mkWorld (rmw_handles w) (next_addr w)
                                            (<[a := f g]> (groups w)) (nodes w))
           | None => (Undefined, w)
           end
       | None => (Undefined, w)
       end.

(** ** Callback-group registry *)

Definition create_callback_group (self : nat) (group_type : CallbackGroupType)
    : M addr :=
  let* group := make_group group_type in
  let* _ := modify_this self
              (λ n, with_callback_groups_ (callback_groups_ n ++ [group]) n) in
  ret group.

(** The loop of [group_in_node], over the heap and the node it reads. *)
Definition group_in_node_loop (heap : gmap addr CallbackGroup)
    (callback_groups_ : list addr) (group : option addr) : bool :=
  foldl (λ group_belongs_to_this_node weak_group,
           let cur_group := lock heap weak_group in
           if bool_decide (is_Some cur_group) && bool_decide (cur_group = group)
           then true
           else group_belongs_to_this_node)
        false callback_groups_.

Definition group_in_node (self : nat) (group : option addr) : M bool :=
  let* n := this self in
  λ w, (Returns (group_in_node_loop (groups w) (callback_groups_ n) group), w).

(** ** Node construction *)

(** [Node::Node(node_name, context)].  The member initialisers set three of
    the four counters; [number_of_clients_] is left with whatever the
    storage held, here [indeterminate]. *)
Definition new_Node (node_name : string) (context : addr) (indeterminate : Z)
    : M nat :=
  let* self := (λ w, (Returns (length (nodes w)),
                      mkWorld (rmw_handles w) (next_addr w) (groups w)
                        (nodes w ++ [{| name_ := node_name;
                                        context_ := context;
                                        node_handle_ := None;
                                        callback_groups_ := [];
                                        default_callback_group_ := None;
                                        number_of_subscriptions_ := 0;
                                        number_of_timers_ := 0;
                                        number_of_services_ := 0;
                                        number_of_clients_ := indeterminate mod 2 ^ 64;
                                        parameters_ := ∅ |}]))) in
  let* handle := rmw_create in
  let* _ := modify_this self (with_node_handle_ (Some handle)) in
  let* group := create_callback_group self MutuallyExclusive in
  let* _ := modify_this self (with_default_callback_group_ (Some group)) in
  ret self.

(** [Node::Node(node_name)] *)
Definition new_Node_default_context (node_name : string) (indeterminate : Z)
    : M nat :=
  let* context := make_shared in
  new_Node node_name context indeterminate.

(** ** Entity creation *)

Definition create_publisher (self : nat) (topic_name : string) (queue_size : Z)
    : M addr :=
  let* n := this self in
  let* publisher_handle := rmw_create in
  make_shared.

Definition create_subscription (self : nat) (topic_name : string)
    (queue_size : Z) (group : option addr) : M addr :=
  let* n := this self in
  let* subscriber_handle := rmw_create in
  let* sub := make_shared in
  let* _ :=
    match group with
    | Some _ =>
        let* owned := group_in_node self group in
        if negb owned
        then throw (runtime_error "Cannot create timer, group not in node.")
        else call_on_group group (add_subscription sub)
    | None =>
        call_on_group (default_callback_group_ n) (add_subscription sub)
    end in
  let* _ := modify_this self
              (λ n, with_number_of_subscriptions_
                      (size_t_incr (number_of_subscriptions_ n)) n) in
  ret sub.

(** [create_wall_timer(std::chrono::nanoseconds, ...)].  The overload that
    takes a fractional duration casts it to nanoseconds and calls this
    one. *)
Definition create_wall_timer (self : nat) (period : Z) (group : option addr)
    : M addr :=
  let* n := this self in
  let* timer := make_shared in
  let* _ :=
    match group with
    | Some _ =>
        let* owned := group_in_node self group in
        if negb owned
        then throw (runtime_error "Cannot create timer, group not in node.")
        else call_on_group group (add_timer timer)
    | None =>
        call_on_group (default_callback_group_ n) (add_timer timer)
    end in
  let* _ := modify_this self
              (λ n, with_number_of_timers_
                      (size_t_incr (number_of_timers_ n)) n) in
  ret timer.

Definition create_client (self : nat) (service_name : string)
    (group : option addr) : M addr :=
  let* n := this self in
  let* client_handle := rmw_create in
  let* cli := make_shared in
  let* _ :=
    match group with
    | Some _ =>
        let* owned := group_in_node self group in
        if negb owned
        then throw (runtime_error "Cannot create client, group not in node.")
        else call_on_group group (add_client cli)
    | None =>
        call_on_group (default_callback_group_ n) (add_client cli)
    end in
  let* _ := modify_this self
              (λ n, with_number_of_clients_
                      (size_t_incr (number_of_clients_ n)) n) in
  ret cli.

Definition create_service (self : nat) (service_name : string)
    (group : option addr) : M addr :=
  let* n := this self in
  let* service_handle := rmw_create in
  let* serv := make_shared in
  let* _ :=
    match group with
    | Some _ =>
        let* owned := group_in_node self group in
        if negb owned
        then throw (runtime_error "Cannot create service, group not in node.")
        else call_on_group group (add_service serv)
    | None =>
        call_on_group (default_callback_group_ n) (add_service serv)
    end in
  let* _ := modify_this self
              (λ n, with_number_of_services_
                      (size_t_incr (number_of_services_ n)) n) in
  ret serv.

(** ** Programs over nodes *)

(** The node-level parameter calls: the store functions above on the
    member [parameters_]. *)
Definition on_parameters_ {R} (self : nat)
    (f : gmap string ParameterVariant → gmap string ParameterVariant * R)
    : M R :=
  let* n := this self in
  let* _ := modify_this self (with_parameters_ (f (parameters_ n)).1) in
  ret (f (parameters_ n)).2.

(** What the owners of a group outside the nodes do when they destroy
    their last [shared_ptr] to it: the group is destroyed unless a node
    still owns it through [default_callback_group_]. *)
Definition release_group (group : addr) : M unit :=
  λ w, if existsb (λ n, bool_decide (default_callback_group_ n = Some group))
                  (nodes w)
       then (Returns tt, w)
       else (Returns tt, mkWorld (rmw_handles w) (next_addr w)
                                 (delete group (groups w)) (nodes w)).

(** What a client program can do, one call at a time. *)
Inductive op :=
| NewNode (node_name : string) (context : addr) (indeterminate : Z)
| NewNodeDefaultContext (node_name : string) (indeterminate : Z)
| CreateCallbackGroup (self : nat) (group_type : CallbackGroupType)
| MakeForeignGroup (group_type : CallbackGroupType)
| ReleaseGroup (group : addr)
| CreatePublisher (self : nat) (topic_name : string) (queue_size : Z)
| CreateSubscription (self : nat) (topic_name : string) (queue_size : Z)
                     (group : option addr)
| CreateWallTimer (self : nat) (period : Z) (group : option addr)
| CreateClient (self : nat) (service_name : string) (group : option addr)
| CreateService (self : nat) (service_name : string) (group : option addr)
| SetParameters (self : nat) (parameters : list RclParameter)
| SetParametersAtomically (self : nat) (parameters : list RclParameter)
| GetParameters (self : nat) (names : list string)
| DescribeParameters (self : nat) (names : list string)
| GetParameterTypes (self : nat) (names : list string)
| ListParameters (self : nat) (prefixes : list string) (depth : N).

Definition discard {A} (m : M A) : M unit := let* _ := m in ret tt.

Definition call (o : op) : M unit :=
  match o with
  | NewNode node_name context indeterminate =>
      discard (new_Node node_name context indeterminate)
  | NewNodeDefaultContext node_name indeterminate =>
      discard (new_Node_default_context node_name indeterminate)
  | CreateCallbackGroup self group_type =>
      discard (create_callback_group self group_type)
  | MakeForeignGroup group_type => discard (make_group group_type)
  | ReleaseGroup group => release_group group
  | CreatePublisher self topic_name queue_size =>
      discard (create_publisher self topic_name queue_size)
  | CreateSubscription self topic_name queue_size group =>
      discard (create_subscription self topic_name queue_size group)
  | CreateWallTimer self period group =>
      discard (create_wall_timer self period group)
  | CreateClient self service_name group =>
      discard (create_client self service_name group)
  | CreateService self service_name group =>
      discard (create_service self service_name group)
  | SetParameters self parameters =>
      discard (on_parameters_ self (λ m, set_parameters m parameters))
  | SetParametersAtomically self parameters =>
      discard (on_parameters_ self (λ m, set_parameters_atomically m parameters))
  | GetParameters self names =>
      discard (on_parameters_ self (λ m, (m, get_parameters m names)))
  | DescribeParameters self names =>
      discard (on_parameters_ self (λ m, (m, describe_parameters m names)))
  | GetParameterTypes self names =>
      discard (on_parameters_ self (λ m, (m, get_parameter_types m names)))
  | ListParameters self prefixes depth =>
      discard (on_parameters_ self (λ m, (m, list_parameters m prefixes depth)))
  end.

(** One call of a program.  A call whose behaviour is undefined (it names
    a node that does not exist) is not a call the program can make, and is
    skipped. *)
Definition step (w : World) (o : op) : World :=
  match call o w with
  | (Undefined, _) => w
  | (_, w') => w'
  end.

Definition run (program : list op) (w : World) : World := foldl step w program.

(** ** Auxiliary notions for the proofs *)

(** The map a run of [m[p.name] = from_parameter(p)] over a batch leaves:
    the loop of [set_parameters] and of [set_parameters_atomically]. *)
Definition assign_all (parameters : list RclParameter)
    (m : gmap string ParameterVariant) : gmap string ParameterVariant :=
  foldl (λ t p, <[name p := from_parameter p]> t) m parameters.

Definition counters (n : Node) : Z * Z * Z * Z :=
  (number_of_subscriptions_ n, number_of_timers_ n,
   number_of_services_ n, number_of_clients_ n).

(** What holds of every world a program can reach. *)
Record wf (w : World) : Prop := mkWf {
  wf_groups_below : ∀ a, is_Some (groups w !! a) → a < next_addr w;
  wf_registry_below : ∀ i n a,
    nodes w !! i = Some n → a ∈ callback_groups_ n → a < next_addr w;
  wf_default : ∀ i n,
    nodes w !! i = Some n →
    ∃ d cg, default_callback_group_ n = Some d ∧
            head (callback_groups_ n) = Some d ∧
            groups w !! d = Some cg ∧ type_ cg = MutuallyExclusive;
  wf_disjoint : ∀ i j ni nj a,
    nodes w !! i = Some ni → nodes w !! j = Some nj →
    a ∈ callback_groups_ ni → a ∈ callback_groups_ nj → i = j
}.

(** What one call can do to the groups and the nodes. *)
Inductive evolves (w : World) : World → Prop :=
| ev_same r a :
    next_addr w ≤ a →
    evolves w (mkWorld r a (groups w) (nodes w))
| ev_foreign_group r group_type :
    evolves w (mkWorld r (S (next_addr w))
                 (<[next_addr w := new_CallbackGroup group_type]> (groups w))
                 (nodes w))
| ev_release r group :
    (∀ i n, nodes w !! i = Some n → default_callback_group_ n ≠ Some group) →
    evolves w (mkWorld r (next_addr w) (delete group (groups w)) (nodes w))
| ev_node_group r self n group_type :
    nodes w !! self = Some n →
    evolves w (mkWorld r (S (next_addr w))
                 (<[next_addr w := new_CallbackGroup group_type]> (groups w))
                 (<[self := with_callback_groups_
                              (callback_groups_ n ++ [next_addr w]) n]> (nodes w)))
| ev_entity r a self n n' group g g' :
    next_addr w ≤ a →
    nodes w !! self = Some n →
    default_callback_group_ n' = default_callback_group_ n →
    callback_groups_ n' = callback_groups_ n →
    groups w !! group = Some g →
    type_ g' = type_ g →
    evolves w (mkWorld r a (<[group := g']> (groups w)) (<[self := n']> (nodes w)))
| ev_node r self n n' :
    nodes w !! self = Some n →
    default_callback_group_ n' = default_callback_group_ n →
    callback_groups_ n' = callback_groups_ n →
    evolves w (mkWorld r (next_addr w) (groups w) (<[self := n']> (nodes w)))
| ev_new_node r a d n' :
    next_addr w ≤ d → d < a →
    default_callback_group_ n' = Some d →
    callback_groups_ n' = [d] →
    evolves w (mkWorld r a (<[d := new_CallbackGroup MutuallyExclusive]> (groups w))
                 (nodes w ++ [n'])).

(** Modelled from the spec: the error the spec calls [GroupNotOwned].  In
    the code it is a [std::runtime_error] whose message names an entity
    kind and ends in "group not in node.". *)
Definition GroupNotOwned (e : exception) : Prop :=
  ∃ kind, e = runtime_error ("Cannot create " +:+ kind +:+ ", group not in node.").

(** The calls that go to the parameter store. *)
Definition is_parameter_call (o : op) : bool :=
  match o with
  | SetParameters _ _ | SetParametersAtomically _ _ | GetParameters _ _
  | DescribeParameters _ _ | GetParameterTypes _ _ | ListParameters _ _ _ => true
  | _ => false
  end.

(** The node a call is made on, if it is a member function of a node that
    already exists. *)
Definition target (o : op) : option nat :=
  match o with
  | NewNode _ _ _ | NewNodeDefaultContext _ _ | MakeForeignGroup _
  | ReleaseGroup _ => None
  | CreateCallbackGroup self _ | CreatePublisher self _ _
  | CreateSubscription self _ _ _ | CreateWallTimer self _ _
  | CreateClient self _ _ | CreateService self _ _
  | SetParameters self _ | SetParametersAtomically self _
  | GetParameters self _ | DescribeParameters self _
  | GetParameterTypes self _ | ListParameters self _ _ => Some self
  end.

Definition returns {A} (r : outcome A) : bool :=
  match r with Returns _ => true | _ => false end.

(** The counters of node [i] after a creation call that returned: the
    call increments the counter for its kind if it was made on [i]. *)
Definition counted (o : op) (i : nat) (c : Z * Z * Z * Z) : Z * Z * Z * Z :=
  let '(subscriptions, timers, services, clients) := c in
  match o with
  | CreateSubscription self _ _ _ =>
      if bool_decide (self = i)
      then (size_t_incr subscriptions, timers, services, clients) else c
  | CreateWallTimer self _ _ =>
      if bool_decide (self = i)
      then (subscriptions, size_t_incr timers, services, clients) else c
  | CreateService self _ _ =>
      if bool_decide (self = i)
      then (subscriptions, timers, size_t_incr services, clients) else c
  | CreateClient self _ _ =>
      if bool_decide (self = i)
      then (subscriptions, timers, services, size_t_incr clients) else c
  | _ => c
  end.

(** All the entities a callback group refers to. *)
Definition entities (g : CallbackGroup) : list addr :=
  subscription_ptrs_ g ++ timer_ptrs_ g ++ service_ptrs_ g ++ client_ptrs_ g.

(** What one call can do to the groups' sets of entities. *)
Inductive groups_step (w : World) : World → Prop :=
| gs_same r a N :
    next_addr w ≤ a →
    groups_step w (mkWorld r a (groups w) N)
| gs_new r a N b group_type :
    next_addr w ≤ a →
    groups_step w (mkWorld r a
                     (<[b := new_CallbackGroup group_type]> (groups w)) N)
| gs_delete r N group :
    groups_step w (mkWorld r (next_addr w) (delete group (groups w)) N)
| gs_bind r N group g g' :
    groups w !! group = Some g →
    entities g' ≡ₚ next_addr w :: entities g →
    groups_step w (mkWorld r (S (next_addr w)) (<[group := g']> (groups w)) N).

(** Each entity is referred to once, by one group. *)
Record entities_once (w : World) : Prop := mkEntitiesOnce {
  eo_below : ∀ a g e,
    groups w !! a = Some g → e ∈ entities g → e < next_addr w;
  eo_NoDup : ∀ a g, groups w !! a = Some g → NoDup (entities g);
  eo_one_group : ∀ a1 a2 g1 g2 e,
    groups w !! a1 = Some g1 → groups w !! a2 = Some g2 →
    e ∈ entities g1 → e ∈ entities g2 → a1 = a2
}.

(** Worlds for the examples. *)
Definition two_nodes : World :=
  run [NewNode "a" 0 0; NewNode "b" 0 0] initial.

Definition node_and_foreign_group : World :=
  run [NewNode "n" 0 0; MakeForeignGroup Reentrant] initial.

Definition one_node : World := run [NewNode "n" 0 0] initial.

Definition node_with_group : World :=
  run [NewNode "n" 0 0; CreateCallbackGroup 0 Reentrant] initial.

Definition example_store : gmap string ParameterVariant :=
  <["a.b" := mkParameterVariant "a.b" (IntegerValue 1)]>
  (<["a.b.c" := mkParameterVariant "a.b.c" (IntegerValue 2)]>
  (<["a.x" := mkParameterVariant "a.x" (IntegerValue 3)]> ∅)).

(** * Properties *)

(** ** Strings *)

Lemma append_nil (t : string) : "" +:+ t = t.
Proof. reflexivity. Qed.

Lemma append_cons a (s t : string) : String a s +:+ t = String a (s +:+ t).
Proof. reflexivity. Qed.

Lemma append_assoc (a b c : string) : (a +:+ b) +:+ c = a +:+ (b +:+ c).
Proof.
  induction a as [|x a IH]; [done|]. rewrite !append_cons. by rewrite IH.
Qed.

Lemma append_inj_l (p a b : string) : p +:+ a = p +:+ b → a = b.
Proof.
  induction p as [|x p IH]; [done|]. rewrite !append_cons.
  intros [=]. auto.
Qed.

Lemma length_append (a b : string) :
  String.length (a +:+ b) = (String.length a + String.length b)%nat.
Proof.
  induction a as [|x a IH]; [done|]. rewrite append_cons. simpl. by rewrite IH.
Qed.

Lemma index_0_prefix pat s :
  String.index 0 pat s = Some 0%nat ↔ String.prefix pat s = true.
Proof.
  destruct s as [|b s]; simpl.
  - destruct pat; simpl; split; congruence.
  - destruct pat as [|a pat]; simpl; [done|].
    destruct (Ascii.ascii_dec a b) as [->|]; simpl.
    + destruct (String.prefix pat s); [done|].
      split; [|done]. destruct (String.index 0 _ s); congruence.
    + split; [|done]. destruct (String.index 0 _ s); congruence.
Qed.

Lemma prefix_append pat s :
  String.prefix pat s = true ↔ ∃ rest, s = pat +:+ rest.
Proof.
  revert s. induction pat as [|a pat IH]; intros s.
  - split; [intros _; by exists s|by destruct s].
  - destruct s as [|b s]; simpl.
    + split; [done|]. intros [rest ?]. discriminate.
    + destruct (Ascii.ascii_dec a b) as [->|Hne].
      * rewrite IH. split; intros [rest Hr]; exists rest;
          rewrite append_cons in *; congruence.
      * split; [done|]. intros [rest Hr]. rewrite append_cons in Hr.
        congruence.
Qed.

Lemma substring_all s : String.substring 0 (String.length s) s = s.
Proof. induction s; simpl; congruence. Qed.

Lemma substr_from_append pat rest :
  Str.substr_from (String.length pat) (pat +:+ rest) = rest.
Proof.
  unfold Str.substr_from. induction pat as [|a pat IH].
  - rewrite append_nil. simpl. rewrite Nat.sub_0_r. apply substring_all.
  - rewrite append_cons. simpl. apply IH.
Qed.

(** The guard of the lambda keeps [substr] in range. *)
Lemma find_0_length prefix key :
  Str.find (prefix +:+ ".") key = Some 0%nat →
  (String.length prefix ≤ String.length key)%nat.
Proof.
  unfold Str.find. rewrite index_0_prefix, prefix_append.
  intros [rest ->]. rewrite !length_append. lia.
Qed.

(** What the lambda of [list_parameters] decides: the key is the prefix,
    a dot and a rest, and the dot and the rest together hold fewer than
    [depth] dots. *)
Lemma prefix_matches_spec key depth prefix :
  prefix_matches key depth prefix = true ↔
  ∃ rest, key = prefix +:+ "." +:+ rest ∧
          (N.of_nat (S (Str.count "."%char rest)) < depth)%N.
Proof.
  unfold prefix_matches, Str.find. case_bool_decide as Hfind.
  - apply index_0_prefix, prefix_append in Hfind as [rest ->].
    rewrite append_assoc, substr_from_append.
    rewrite append_cons, append_nil. simpl Str.count.
    rewrite N.ltb_lt. split.
    + intros Hlt. by exists rest.
    + intros (rest' & Heq & Hlt).
      apply append_inj_l in Heq. rewrite append_cons, append_nil in Heq.
      by simplify_eq.
  - split; [done|]. intros (rest & -> & _). exfalso. apply Hfind.
    apply index_0_prefix, prefix_append. exists rest.
    by rewrite append_assoc.
Qed.

(** ** Iteration over a [std::map] *)

Section ordered_map_facts.
Context {V : Type}.
Implicit Types (m : gmap string V) (k : string) (v : V).

Lemma map_items_Permutation m : map_items m ≡ₚ map_to_list m.
Proof. apply merge_sort_Permutation. Qed.

Lemma elem_of_map_items m k v : (k, v) ∈ map_items m ↔ m !! k = Some v.
Proof. by rewrite map_items_Permutation, elem_of_map_to_list. Qed.

Lemma length_map_items m : length (map_items m) = size m.
Proof. by rewrite map_items_Permutation, length_map_to_list. Qed.

Lemma list_to_map_items m : list_to_map (map_items m) = m.
Proof.
  rewrite <- (list_to_map_to_list m) at 2.
  apply list_to_map_proper; [|apply map_items_Permutation].
  rewrite map_items_Permutation. apply NoDup_fst_map_to_list.
Qed.

Lemma insert_range_fold (l : list (string * V)) (acc : gmap string V) :
  foldl (λ (acc : gmap string V) kv,
           match acc !! kv.1 with
           | Some _ => acc
           | None => <[kv.1 := kv.2]> acc
           end) acc l = acc ∪ list_to_map l.
Proof.
  revert acc. induction l as [|[k v] l IH]; intros acc; simpl.
  - by rewrite (right_id_L ∅ (∪)).
  - rewrite IH. apply map_eq. intros i.
    rewrite !lookup_union.
    destruct (acc !! k) as [w|] eqn:Hk.
    + destruct (decide (k = i)) as [->|].
      * rewrite Hk, lookup_insert_eq. by destruct (list_to_map l !! i).
      * by rewrite lookup_insert_ne.
    + destruct (decide (k = i)) as [->|].
      * rewrite Hk, !lookup_insert_eq. by destruct (list_to_map l !! i).
      * by rewrite !lookup_insert_ne.
Qed.

(** [insert(first, last)] is the union that keeps the left values. *)
Lemma map_insert_range_union m other : map_insert_range m other = m ∪ other.
Proof.
  unfold map_insert_range. by rewrite insert_range_fold, list_to_map_items.
Qed.

End ordered_map_facts.

(** A loop that pushes to [results] for the entries a test accepts. *)
Lemma foldl_push_if {A B} (test : A → bool) (f : A → B) l acc :
  foldl (λ results x, if test x then results ++ [f x] else results) acc l
  = acc ++ (f <$> filter (λ x, test x = true) l).
Proof.
  revert acc. induction l as [|x l IH]; intros acc; simpl.
  - by rewrite app_nil_r.
  - rewrite IH. rewrite filter_cons. destruct (test x) eqn:Hx.
    + rewrite decide_True by done. by rewrite <- app_assoc.
    + by rewrite decide_False by (by intros ?).
Qed.

Lemma foldl_push {A B} (f : A → B) l acc :
  foldl (λ results x, results ++ [f x]) acc l = acc ++ (f <$> l).
Proof.
  revert acc. induction l as [|x l IH]; intros acc; simpl.
  - by rewrite app_nil_r.
  - by rewrite IH, <- app_assoc.
Qed.

Lemma any_of_true {A} (l : list A) pred :
  any_of l pred = true ↔ ∃ x, x ∈ l ∧ pred x = true.
Proof.
  unfold any_of. rewrite existsb_exists.
  by setoid_rewrite list_elem_of_In.
Qed.

(** ** [list_parameters] *)

Lemma listed_names_list_parameters m prefixes depth :
  listed_names (list_parameters m prefixes depth)
  = (filter (λ kv, any_of prefixes (prefix_matches kv.1 depth) = true)
            (map_items m)).*1.
Proof.
  unfold listed_names, list_parameters.
  etrans; [apply (f_equal (λ l, concat (parameter_names <$> l)));
           apply (foldl_push_if
                    (λ kv : string * ParameterVariant,
                       any_of prefixes (prefix_matches kv.1 depth)))|].
  simpl. induction (filter _ (map_items m)) as [|kv l IH]; [done|].
  rewrite !fmap_cons. simpl. by rewrite IH.
Qed.

(** C1 fails on the code: the lambda matches [prefix + "."] but counts the
    dots of [kv.first.substr(prefix.length())], which still begins with
    that separating dot.  So a stored key is among the names that
    [list_parameters(prefixes, depth)] returns if and only if it is some
    requested prefix, a dot and a rest whose dots, plus one, are fewer
    than [depth].  Over the keys "a.b", "a.b.c" and "a.x",
    [list_parameters(["a"], 1)] returns no name, where the claim has
    "a.b" and "a.x"; these two are what [list_parameters(["a"], 2)]
    returns. *)
Theorem list_parameters_names :
  (∀ (m : gmap string ParameterVariant) prefixes depth K,
     K ∈ listed_names (list_parameters m prefixes depth) ↔
     is_Some (m !! K) ∧
     ∃ prefix rest, prefix ∈ prefixes ∧ K = prefix +:+ "." +:+ rest ∧
                    (N.of_nat (S (Str.count "."%char rest)) < depth)%N)
  ∧ listed_names (list_parameters example_store ["a"] 1) = []
  ∧ listed_names (list_parameters example_store ["a"] 2) = ["a.b"; "a.x"].
Proof.
  split; [|by vm_compute].
  intros m prefixes depth K. rewrite listed_names_list_parameters.
  rewrite list_elem_of_fmap. split.
  - intros ([k v] & -> & Hin). apply list_elem_of_filter in Hin as [Hany Hin].
    apply elem_of_map_items in Hin. simpl in *. split; [by eexists|].
    apply any_of_true in Hany as (prefix & Hp & Hmatch).
    apply prefix_matches_spec in Hmatch as (rest & -> & Hlt). eauto.
  - intros ([v Hv] & prefix & rest & Hp & -> & Hlt).
    exists (prefix +:+ "." +:+ rest, v). split; [done|].
    apply list_elem_of_filter. split; [|by apply elem_of_map_items].
    apply any_of_true. exists prefix. split; [done|].
    apply prefix_matches_spec. eauto.
Qed.

(** Over the keys "a.b", "a.b.c" and "a.x", the names of
    [list_parameters(["a"], 1)] are not exactly "a.b" and "a.x". *)
Lemma list_parameters_depth_1_counterexample :
  ¬ (∀ K, K ∈ listed_names (list_parameters example_store ["a"] 1) ↔
          K = "a.b" ∨ K = "a.x").
Proof.
  intros H. destruct (H "a.b") as [_ Hin].
  specialize (Hin (or_introl eq_refl)).
  vm_compute in Hin. inversion Hin.
Qed.

(** ** [get_parameter_types] *)

Lemma get_parameter_types_loop_length names
    (l : list (string * ParameterVariant)) (acc : list ParameterType) :
  length (foldl (λ results kv,
                   if requested names kv.1
                   then results ++ [get_type kv.2]
                   else results ++ [PARAMETER_NOT_SET]) acc l)
  = (length acc + length l)%nat.
Proof.
  revert acc. induction l as [|kv l IH]; intros acc; simpl; [lia|].
  rewrite IH. destruct (requested names kv.1); rewrite length_app; simpl; lia.
Qed.

(** C2 fails on the code: the loop runs over the stored entries, so the
    result has one entry per stored key, whatever the request; for the
    request ["missing"] on an empty store it is empty, and for the request
    ["a.x"] on a store of three keys it has three entries. *)
Theorem get_parameter_types_per_stored_key :
  (∀ (m : gmap string ParameterVariant) names,
     length (get_parameter_types m names) = size m)
  ∧ get_parameter_types ∅ ["missing"] = []
  ∧ get_parameter_types example_store ["a.x"]
    = [PARAMETER_NOT_SET; PARAMETER_NOT_SET; PARAMETER_INTEGER].
Proof.
  split; [|by vm_compute].
  intros m names. unfold get_parameter_types.
  by rewrite get_parameter_types_loop_length, length_map_items.
Qed.

(** ** The other getters, on the spec's round trip *)

Example set_then_get :
  get_parameters (set_parameters ∅ [mkRclParameter "p" (IntegerValue 5)]).1 ["p"]
  = [mkParameterVariant "p" (IntegerValue 5)]
  ∧ describe_parameters
      (set_parameters ∅ [mkRclParameter "p" (IntegerValue 5)]).1 ["p"]
    = [mkParameterDescriptor "p" PARAMETER_INTEGER]
  ∧ get_parameters example_store ["a.x"; "missing"; "a.b"]
    = [mkParameterVariant "a.b" (IntegerValue 1);
       mkParameterVariant "a.x" (IntegerValue 3)].
Proof. by vm_compute. Qed.

Example list_parameters_records :
  list_parameters example_store ["a"; "a.b"] 2
  = [mkListParametersResult ["a.b"] ["a"];
     mkListParametersResult ["a.b.c"] ["a.b"];
     mkListParametersResult ["a.x"] ["a"]].
Proof. by vm_compute. Qed.

(** ** [set_parameters] and [set_parameters_atomically] *)

Section set_parameters.
Implicit Types (m staging : gmap string ParameterVariant).
Implicit Types (parameters : list RclParameter).

Lemma assign_all_union parameters staging m :
  assign_all parameters (staging ∪ m) = assign_all parameters staging ∪ m.
Proof.
  unfold assign_all. revert staging.
  induction parameters as [|p ps IH]; intros staging; simpl; [done|].
  by rewrite insert_union_l, IH.
Qed.

Lemma assign_all_staged parameters m :
  assign_all parameters m = assign_all parameters ∅ ∪ m.
Proof.
  by rewrite <- assign_all_union, (left_id_L ∅ (∪)).
Qed.

(** The value the batch gives a key: that of the last entry with this
    name. *)
Lemma assign_all_lookup parameters m k :
  assign_all parameters m !! k
  = match last (filter (λ p, name p = k) parameters) with
    | Some p => Some (from_parameter p)
    | None => m !! k
    end.
Proof.
  unfold assign_all.
  induction parameters as [|p ps IH] using rev_ind; [done|].
  rewrite foldl_app, filter_app. simpl. rewrite filter_cons, filter_nil.
  destruct (decide (name p = k)) as [<-|Hne].
  - by rewrite last_snoc, lookup_insert_eq.
  - by rewrite app_nil_r, lookup_insert_ne.
Qed.

Lemma set_parameters_loop parameters m results :
  foldl (λ '(parameters_, results) p,
           (<[name p := from_parameter p]> parameters_,
            results ++ [{| successful := true |}]))
        (m, results) parameters
  = (assign_all parameters m,
     results ++ replicate (length parameters) {| successful := true |}).
Proof.
  unfold assign_all. revert m results.
  induction parameters as [|p ps IH]; intros m results; simpl.
  - by rewrite app_nil_r.
  - by rewrite IH, <- app_assoc.
Qed.

Lemma set_parameters_eq parameters m :
  set_parameters m parameters
  = (assign_all parameters m,
     replicate (length parameters) {| successful := true |}).
Proof. unfold set_parameters. by rewrite set_parameters_loop. Qed.

Lemma set_parameters_atomically_eq parameters m :
  set_parameters_atomically m parameters
  = (assign_all parameters ∅ ∪ m, {| successful := true |}).
Proof.
  unfold set_parameters_atomically, atomic_swap, atomic_merge, atomic_stage.
  simpl. by rewrite map_insert_range_union.
Qed.

End set_parameters.

(** C3: [set_parameters_atomically(batch)] leaves the store equal to the
    staging map built from the batch, merged with the map from before the
    call so that a key of both keeps the batch's value (for a name the
    batch gives twice, the last one); the member [parameters_] still is
    the old map after the staging loop and after the merge, and is
    replaced once, by the swap; the call reports success. *)
Theorem set_parameters_atomically_merge
    (parameters_ : gmap string ParameterVariant)
    (parameters : list RclParameter) :
  let staged := atomic_stage parameters
                  {| tmp_map := ∅; frame_parameters_ := parameters_ |} in
  let after := (set_parameters_atomically parameters_ parameters).1 in
  after = tmp_map staged ∪ parameters_
  ∧ (∀ k, tmp_map staged !! k
          = from_parameter <$> last (filter (λ p, name p = k) parameters))
  ∧ (∀ k v, tmp_map staged !! k = Some v → after !! k = Some v)
  ∧ (∀ k, tmp_map staged !! k = None → after !! k = parameters_ !! k)
  ∧ frame_parameters_ staged = parameters_
  ∧ frame_parameters_ (atomic_merge staged) = parameters_
  ∧ frame_parameters_ (atomic_swap (atomic_merge staged)) = after
  ∧ successful (set_parameters_atomically parameters_ parameters).2 = true.
Proof.
  intros staged after.
  assert (after = tmp_map staged ∪ parameters_) as Hafter.
  { unfold after. by rewrite set_parameters_atomically_eq. }
  split_and!; try done.
  - intros k. unfold staged. simpl.
    change (foldl _ ∅ parameters) with (assign_all parameters ∅).
    rewrite assign_all_lookup.
    by destruct (last _).
  - intros k v Hk. rewrite Hafter. by apply lookup_union_Some_l.
  - intros k Hk. rewrite Hafter. by rewrite lookup_union_r.
Qed.

(** C8: calling [set_parameters] twice with the same list leaves the same
    parameter map as calling it once (and the same results). *)
Theorem set_parameters_idempotent
    (parameters_ : gmap string ParameterVariant)
    (parameters : list RclParameter) :
  let once := set_parameters parameters_ parameters in
  let twice := set_parameters once.1 parameters in
  twice.1 = once.1 ∧ twice.2 = once.2.
Proof.
  simpl. rewrite !set_parameters_eq. simpl. split; [|done].
  rewrite (assign_all_staged parameters (assign_all parameters parameters_)).
  rewrite (assign_all_staged parameters parameters_).
  by rewrite (assoc_L (∪)), (idemp_L (∪)).
Qed.

(** ** Calls, one by one *)

Lemma lookup_snoc {A} (l : list A) x : (l ++ [x]) !! length l = Some x.
Proof. by apply list_lookup_middle. Qed.

Lemma insert_snoc {A} (l : list A) x y : <[length l := y]> (l ++ [x]) = l ++ [y].
Proof. by rewrite insert_app_r_alt, Nat.sub_diag by lia. Qed.

Lemma new_Node_eq node_name context indeterminate w :
  new_Node node_name context indeterminate w
  = (Returns (length (nodes w)),
     mkWorld (S (rmw_handles w)) (S (next_addr w))
       (<[next_addr w := new_CallbackGroup MutuallyExclusive]> (groups w))
       (nodes w ++ [{| name_ := node_name;
                       context_ := context;
                       node_handle_ := Some (rmw_handles w);
                       callback_groups_ := [next_addr w];
                       default_callback_group_ := Some (next_addr w);
                       number_of_subscriptions_ := 0;
                       number_of_timers_ := 0;
                       number_of_services_ := 0;
                       number_of_clients_ := indeterminate mod 2 ^ 64;
                       parameters_ := ∅ |}])).
Proof.
  unfold new_Node, create_callback_group, bind, rmw_create, make_group,
    modify_this, ret. simpl.
  repeat (rewrite ?lookup_snoc, ?insert_snoc; simpl).
  done.
Qed.

Lemma evolves_refl w : evolves w w.
Proof. destruct w as [r a G N]. by apply (ev_same (mkWorld r a G N)). Qed.

Ltac unfold_call :=
  unfold step, call, discard, on_parameters_,
    create_publisher, create_subscription, create_wall_timer, create_client,
    create_service, create_callback_group, group_in_node, release_group,
    call_on_group, make_group, make_shared, rmw_create, modify_this, this,
    throw, undefined, bind, ret.

Ltac evolves_leaf :=
  first
    [ apply evolves_refl
    | apply ev_foreign_group
    | eapply ev_node_group; eassumption
    | eapply ev_node; [eassumption|reflexivity|reflexivity]
    | eapply ev_entity; [|eassumption|reflexivity|reflexivity|eassumption|reflexivity];
      simpl; lia
    | apply ev_same; simpl; lia ].

Lemma step_evolves w o : evolves w (step w o).
Proof.
  destruct o.
  - unfold step, call, discard, bind. rewrite new_Node_eq.
    eapply ev_new_node; simpl; eauto; lia.
  - unfold step, call, discard, new_Node_default_context, bind at 1 2, make_shared.
    rewrite new_Node_eq. simpl.
    eapply ev_new_node; simpl; eauto; lia.
  - unfold_call; simpl. repeat (case_match; simplify_eq/=); evolves_leaf.
  - unfold_call; simpl. evolves_leaf.
  - unfold_call; simpl. destruct (existsb _ (nodes w)) eqn:Hex; simpl;
      [apply evolves_refl|].
    apply ev_release. intros i n Hn Hd.
    apply not_true_iff_false in Hex. apply Hex.
    apply existsb_exists. exists n. split.
    + apply list_elem_of_In. by eapply list_elem_of_lookup_2.
    + by apply bool_decide_eq_true.
  - unfold_call; simpl. repeat (case_match; simplify_eq/=); evolves_leaf.
  - unfold_call; simpl. repeat (case_match; simplify_eq/=); evolves_leaf.
  - unfold_call; simpl. repeat (case_match; simplify_eq/=); evolves_leaf.
  - unfold_call; simpl. repeat (case_match; simplify_eq/=); evolves_leaf.
  - unfold_call; simpl. repeat (case_match; simplify_eq/=); evolves_leaf.
  - unfold_call; simpl. repeat (case_match; simplify_eq/=); evolves_leaf.
  - unfold_call; simpl. repeat (case_match; simplify_eq/=); evolves_leaf.
  - unfold_call; simpl. repeat (case_match; simplify_eq/=); evolves_leaf.
  - unfold_call; simpl. repeat (case_match; simplify_eq/=); evolves_leaf.
  - unfold_call; simpl. repeat (case_match; simplify_eq/=); evolves_leaf.
  - unfold_call; simpl. repeat (case_match; simplify_eq/=); evolves_leaf.
Qed.

(** ** What a call preserves *)

Lemma next_evolves w w' : evolves w w' → next_addr w ≤ next_addr w'.
Proof. destruct 1; simpl; lia. Qed.

Lemma head_app_Some {A} (l l' : list A) x :
  head l = Some x → head (l ++ l') = Some x.
Proof. by destruct l. Qed.

Lemma node_evolves w w' i n :
  evolves w w' → nodes w !! i = Some n →
  ∃ n', nodes w' !! i = Some n' ∧
        default_callback_group_ n' = default_callback_group_ n ∧
        (callback_groups_ n' = callback_groups_ n ∨
         callback_groups_ n' = callback_groups_ n ++ [next_addr w]).
Proof.
  intros Hev Hi.
  assert (i < length (nodes w)) as Hlen by by eapply lookup_lt_Some.
  destruct Hev; simpl; eauto.
  - destruct (decide (i = self)) as [->|Hne].
    + rewrite list_lookup_insert_eq by done. simplify_eq. eauto.
    + rewrite list_lookup_insert_ne by done. eauto.
  - destruct (decide (i = self)) as [->|Hne].
    + rewrite list_lookup_insert_eq by done. simplify_eq. eauto.
    + rewrite list_lookup_insert_ne by done. eauto.
  - destruct (decide (i = self)) as [->|Hne].
    + rewrite list_lookup_insert_eq by done. simplify_eq. eauto.
    + rewrite list_lookup_insert_ne by done. eauto.
  - rewrite lookup_app_l by done. eauto.
Qed.

Lemma wf_initial : wf initial.
Proof.
  split; simpl.
  - intros a [? Ha]. by rewrite lookup_empty in Ha.
  - intros i n a Hi. by rewrite lookup_nil in Hi.
  - intros i n Hi. by rewrite lookup_nil in Hi.
  - intros i j ni nj a Hi. by rewrite lookup_nil in Hi.
Qed.

Lemma wf_default_below w i n d :
  wf w → nodes w !! i = Some n → default_callback_group_ n = Some d →
  d < next_addr w.
Proof.
  intros Hwf Hi Hd. destruct (wf_default w Hwf i n Hi) as (d' & cg & ? & _ & Hg & _).
  simplify_eq. eapply wf_groups_below; eauto.
Qed.

(** A node of [<[self := n']> (nodes w)] is [n'] or a node of [w]. *)
Lemma lookup_updated_node w self n n' i x :
  nodes w !! self = Some n →
  <[self := n']> (nodes w) !! i = Some x →
  (i = self ∧ x = n') ∨ (i ≠ self ∧ nodes w !! i = Some x).
Proof.
  intros Hself Hx. apply list_lookup_insert_Some in Hx.
  destruct Hx as [(-> & ? & _)|[? ?]]; auto.
Qed.

Lemma wf_evolves w w' : wf w → evolves w w' → wf w'.
Proof.
  intros Hwf Hev.
  destruct Hev as
    [ r a Ha | r ty | r group Hnd | r self n ty Hself
    | r a self n n' group g g' Ha Hself Hdef Hcgs Hg Hty
    | r self n n' Hself Hdef Hcgs | r a d n' Hd Hda Hdef Hcgs ].
  - (* nothing but fresh allocations *)
    split; simpl.
    + intros b Hb. apply (wf_groups_below w Hwf) in Hb. lia.
    + intros i n b Hi Hb. pose proof (wf_registry_below w Hwf i n b Hi Hb). lia.
    + apply Hwf.
    + apply Hwf.
  - (* a group outside the nodes *)
    split; simpl.
    + intros b Hb. apply lookup_insert_is_Some in Hb as [->|[_ Hb]]; [lia|].
      apply (wf_groups_below w Hwf) in Hb. lia.
    + intros i n b Hi Hb. pose proof (wf_registry_below w Hwf i n b Hi Hb). lia.
    + intros i n Hi.
      destruct (wf_default w Hwf i n Hi) as (d & cg & Hd & Hhd & Hg & Hty).
      exists d, cg. split_and!; try done.
      rewrite lookup_insert_ne; [done|].
      pose proof (wf_default_below w i n d Hwf Hi Hd). lia.
    + apply Hwf.
  - (* a group released *)
    split; simpl.
    + intros b Hb. apply lookup_delete_is_Some in Hb as [_ Hb].
      by apply (wf_groups_below w Hwf).
    + apply Hwf.
    + intros i n Hi.
      destruct (wf_default w Hwf i n Hi) as (d & cg & Hd & Hhd & Hg & Hty).
      exists d, cg. split_and!; try done.
      rewrite lookup_delete_ne; [done|]. intros ->. by eapply Hnd.
    + apply Hwf.
  - (* create_callback_group *)
    split; simpl.
    + intros b Hb. apply lookup_insert_is_Some in Hb as [->|[_ Hb]]; [lia|].
      apply (wf_groups_below w Hwf) in Hb. lia.
    + intros i x b Hi Hb.
      apply (lookup_updated_node _ _ _ _ _ _ Hself) in Hi as [[-> ->]|[_ Hi]].
      * simpl in Hb. apply elem_of_app in Hb as [Hb|Hb].
        -- pose proof (wf_registry_below w Hwf self n b Hself Hb). lia.
        -- apply list_elem_of_singleton in Hb. lia.
      * pose proof (wf_registry_below w Hwf i x b Hi Hb). lia.
    + intros i x Hi.
      apply (lookup_updated_node _ _ _ _ _ _ Hself) in Hi as [[-> ->]|[_ Hi]].
      * destruct (wf_default w Hwf self n Hself) as (d & cg & Hd & Hhd & Hg & Hty).
        exists d, cg. simpl. split_and!; try done.
        -- by apply head_app_Some.
        -- rewrite lookup_insert_ne; [done|].
           pose proof (wf_default_below w self n d Hwf Hself Hd). lia.
      * destruct (wf_default w Hwf i x Hi) as (d & cg & Hd & Hhd & Hg & Hty).
        exists d, cg. split_and!; try done.
        rewrite lookup_insert_ne; [done|].
        pose proof (wf_default_below w i x d Hwf Hi Hd). lia.
    + intros i j ni nj b Hi Hj Hbi Hbj.
      apply (lookup_updated_node _ _ _ _ _ _ Hself) in Hi as [[-> ->]|[Hine Hi]];
      apply (lookup_updated_node _ _ _ _ _ _ Hself) in Hj as [[-> ->]|[Hjne Hj]];
        try done; simpl in *.
      * apply elem_of_app in Hbi as [Hbi|Hbi].
        -- by eapply (wf_disjoint w Hwf).
        -- apply list_elem_of_singleton in Hbi as ->.
           pose proof (wf_registry_below w Hwf j nj _ Hj Hbj). lia.
      * apply elem_of_app in Hbj as [Hbj|Hbj].
        -- by eapply (wf_disjoint w Hwf).
        -- apply list_elem_of_singleton in Hbj as ->.
           pose proof (wf_registry_below w Hwf i ni _ Hi Hbi). lia.
      * by eapply (wf_disjoint w Hwf).
  - (* an entity bound to a group *)
    split; simpl.
    + intros b Hb. apply lookup_insert_is_Some in Hb as [<-|[_ Hb]].
      * assert (group < next_addr w) by (by eapply wf_groups_below). lia.
      * apply (wf_groups_below w Hwf) in Hb. lia.
    + intros i x b Hi Hb.
      apply (lookup_updated_node _ _ _ _ _ _ Hself) in Hi as [[-> ->]|[_ Hi]].
      * rewrite Hcgs in Hb. pose proof (wf_registry_below w Hwf self n b Hself Hb). lia.
      * pose proof (wf_registry_below w Hwf i x b Hi Hb). lia.
    + assert (∀ i x, nodes w !! i = Some x →
                ∃ d cg, default_callback_group_ x = Some d ∧
                        head (callback_groups_ x) = Some d ∧
                        <[group := g']> (groups w) !! d = Some cg ∧
                        type_ cg = MutuallyExclusive) as Hold.
      { intros i x Hi.
        destruct (wf_default w Hwf i x Hi) as (d & cg & Hd & Hhd & Hgd & Htyd).
        destruct (decide (group = d)) as [->|Hne].
        - exists d, g'. rewrite lookup_insert_eq. split_and!; try done.
          simplify_eq. congruence.
        - exists d, cg. by rewrite lookup_insert_ne. }
      intros i x Hi.
      apply (lookup_updated_node _ _ _ _ _ _ Hself) in Hi as [[-> ->]|[_ Hi]]; [|eauto].
      rewrite Hdef, Hcgs. eauto.
    + intros i j ni nj b Hi Hj Hbi Hbj.
      apply (lookup_updated_node _ _ _ _ _ _ Hself) in Hi as [[-> ->]|[Hine Hi]];
      apply (lookup_updated_node _ _ _ _ _ _ Hself) in Hj as [[-> ->]|[Hjne Hj]];
        try done; rewrite ?Hcgs in *; by eapply (wf_disjoint w Hwf).
  - (* a node's parameters *)
    split; simpl.
    + apply Hwf.
    + intros i x b Hi Hb.
      apply (lookup_updated_node _ _ _ _ _ _ Hself) in Hi as [[-> ->]|[_ Hi]].
      * rewrite Hcgs in Hb. by eapply (wf_registry_below w Hwf).
      * by eapply (wf_registry_below w Hwf).
    + intros i x Hi.
      apply (lookup_updated_node _ _ _ _ _ _ Hself) in Hi as [[-> ->]|[_ Hi]].
      * rewrite Hdef, Hcgs. by eapply (wf_default w Hwf).
      * by eapply (wf_default w Hwf).
    + intros i j ni nj b Hi Hj Hbi Hbj.
      apply (lookup_updated_node _ _ _ _ _ _ Hself) in Hi as [[-> ->]|[Hine Hi]];
      apply (lookup_updated_node _ _ _ _ _ _ Hself) in Hj as [[-> ->]|[Hjne Hj]];
        try done; rewrite ?Hcgs in *; by eapply (wf_disjoint w Hwf).
  - (* a new node *)
    assert (∀ i x, (nodes w ++ [n']) !! i = Some x →
              nodes w !! i = Some x ∨ (i = length (nodes w) ∧ x = n')) as Hcases.
    { intros i x Hi. apply lookup_app_Some in Hi as [?|[? Hi]]; [by left|right].
      apply list_lookup_singleton_Some in Hi as [? ->]. split; [lia|done]. }
    split; simpl.
    + intros b Hb. apply lookup_insert_is_Some in Hb as [->|[_ Hb]]; [lia|].
      apply (wf_groups_below w Hwf) in Hb. lia.
    + intros i x b Hi Hb. apply Hcases in Hi as [Hi|[-> ->]].
      * pose proof (wf_registry_below w Hwf i x b Hi Hb). lia.
      * rewrite Hcgs in Hb. apply list_elem_of_singleton in Hb. lia.
    + intros i x Hi. apply Hcases in Hi as [Hi|[-> ->]].
      * destruct (wf_default w Hwf i x Hi) as (d0 & cg & Hd0 & Hhd & Hg & Hty).
        exists d0, cg. split_and!; try done.
        rewrite lookup_insert_ne; [done|].
        pose proof (wf_default_below w i x d0 Hwf Hi Hd0). lia.
      * exists d, (new_CallbackGroup MutuallyExclusive).
        rewrite Hdef, Hcgs, lookup_insert_eq. done.
    + intros i j ni nj b Hi Hj Hbi Hbj.
      apply Hcases in Hi as [Hi|[-> ->]]; apply Hcases in Hj as [Hj|[-> ->]];
        try done.
      * by eapply (wf_disjoint w Hwf).
      * rewrite Hcgs in Hbj. apply list_elem_of_singleton in Hbj as ->.
        pose proof (wf_registry_below w Hwf i ni _ Hi Hbi). lia.
      * rewrite Hcgs in Hbi. apply list_elem_of_singleton in Hbi as ->.
        pose proof (wf_registry_below w Hwf j nj _ Hj Hbj). lia.
Qed.

(** ** Programs *)

Lemma wf_run program w : wf w → wf (run program w).
Proof.
  revert w. induction program as [|o program IH]; intros w Hwf; [done|].
  simpl. apply IH. eapply wf_evolves; [done|apply step_evolves].
Qed.

Lemma wf_reachable program : wf (run program initial).
Proof. apply wf_run, wf_initial. Qed.

(** A node stays, keeps its default group, and its registry only grows at
    the end. *)
Lemma node_run program w i n :
  nodes w !! i = Some n →
  ∃ n' ext, nodes (run program w) !! i = Some n' ∧
            default_callback_group_ n' = default_callback_group_ n ∧
            callback_groups_ n' = callback_groups_ n ++ ext.
Proof.
  revert w n. induction program as [|o program IH]; intros w n Hi; simpl.
  - exists n, []. by rewrite app_nil_r.
  - destruct (node_evolves w (step w o) i n (step_evolves w o) Hi)
      as (n1 & Hi1 & Hd1 & Hcgs1).
    destruct (IH _ _ Hi1) as (n2 & ext & Hi2 & Hd2 & Hcgs2).
    exists n2. destruct Hcgs1 as [Heq|Heq]; rewrite Heq in Hcgs2.
    + exists ext. split_and!; [done|congruence|done].
    + exists ([next_addr w] ++ ext). split_and!; [done|congruence|].
      by rewrite Hcgs2, <- app_assoc.
Qed.

(** ** [group_in_node] *)

Lemma group_in_node_loop_true heap l group :
  group_in_node_loop heap l group = true ↔
  ∃ r, r ∈ l ∧ is_Some (heap !! r) ∧ group = Some r.
Proof.
  unfold group_in_node_loop.
  assert (∀ b,
    foldl (λ flag weak_group,
             let cur_group := lock heap weak_group in
             if bool_decide (is_Some cur_group) && bool_decide (cur_group = group)
             then true else flag) b l = true
    ↔ b = true ∨ ∃ r, r ∈ l ∧ is_Some (heap !! r) ∧ group = Some r) as Hgen.
  { induction l as [|a l IH]; intros b; simpl.
    - split; [auto|]. intros [?|(r & Hr & _)]; [done|]. by apply elem_of_nil in Hr.
    - rewrite IH. unfold lock. split.
      + intros [Hb|(r & Hr & ?)].
        * destruct (heap !! a) as [cg|] eqn:Ha; simpl in Hb; [|by left].
          case_bool_decide as Heq; simpl in Hb; [|by left].
          right. exists a. split_and!; [left|by rewrite Ha|done].
        * right. exists r. split; [by right|done].
      + intros [->|(r & Hr & Hlive & ->)].
        * left. by destruct (_ && _).
        * apply elem_of_cons in Hr as [->|Hr]; [|right; eauto].
          left. destruct Hlive as [cg ->]. simpl.
          by rewrite bool_decide_eq_true_2. }
  rewrite Hgen. split; [by intros [?|?]|auto].
Qed.

Lemma group_in_node_eq w self n group :
  nodes w !! self = Some n →
  group_in_node self group w
  = (Returns (group_in_node_loop (groups w) (callback_groups_ n) group), w).
Proof. intros Hn. unfold group_in_node, bind, this. by rewrite Hn. Qed.

Lemma create_callback_group_eq w self n group_type :
  nodes w !! self = Some n →
  create_callback_group self group_type w
  = (Returns (next_addr w),
     mkWorld (rmw_handles w) (S (next_addr w))
       (<[next_addr w := new_CallbackGroup group_type]> (groups w))
       (<[self := with_callback_groups_ (callback_groups_ n ++ [next_addr w]) n]>
          (nodes w))).
Proof.
  intros Hn. unfold create_callback_group, bind, make_group, modify_this, ret.
  simpl. by rewrite Hn.
Qed.

Lemma create_callback_group_Returns w self group_type g w1 :
  create_callback_group self group_type w = (Returns g, w1) →
  w1 = step w (CreateCallbackGroup self group_type) ∧
  ∃ n n1, nodes w !! self = Some n ∧ nodes w1 !! self = Some n1 ∧
          g ∈ callback_groups_ n1.
Proof.
  intros Hcall. unfold step, call, discard, bind at 1. rewrite Hcall. simpl.
  split; [done|].
  destruct (nodes w !! self) as [n|] eqn:Hn.
  - rewrite (create_callback_group_eq w self n) in Hcall by done.
    simplify_eq. eexists n, _. split; [done|]. simpl.
    rewrite list_lookup_insert_eq by by eapply lookup_lt_Some.
    split; [done|]. simpl. apply elem_of_app. right. by left.
  - exfalso. revert Hcall.
    unfold create_callback_group, bind, make_group, modify_this, ret.
    simpl. by rewrite Hn.
Qed.

(** C6: [group_in_node(g)] returns, and returns true if and only if some
    reference stored in the node is live and is [g]; an expired reference
    is skipped.  It holds for a group that [create_callback_group] made on
    this node for as long as the group is live, and it never holds for a
    group that [create_callback_group] made on another node. *)
Theorem group_in_node_spec :
  (∀ w self n group,
     nodes w !! self = Some n →
     ∃ b, group_in_node self group w = (Returns b, w) ∧
          (b = true ↔ ∃ r, r ∈ callback_groups_ n ∧
                           is_Some (groups w !! r) ∧ group = Some r))
  ∧ (∀ w self group_type g w1 program,
       create_callback_group self group_type w = (Returns g, w1) →
       is_Some (groups (run program w1) !! g) →
       group_in_node self (Some g) (run program w1)
       = (Returns true, run program w1))
  ∧ (∀ program1 self other group_type g w1 program2,
       self ≠ other →
       create_callback_group other group_type (run program1 initial)
       = (Returns g, w1) →
       is_Some (nodes (run program2 w1) !! self) →
       group_in_node self (Some g) (run program2 w1)
       = (Returns false, run program2 w1)).
Proof.
  split_and!.
  - intros w self n group Hn. eexists. split; [by apply group_in_node_eq|].
    apply group_in_node_loop_true.
  - intros w self group_type g w1 program Hcall Hlive.
    apply create_callback_group_Returns in Hcall as (_ & n & n1 & _ & Hn1 & Hg).
    destruct (node_run program w1 self n1 Hn1) as (n2 & ext & Hn2 & _ & Hcgs).
    rewrite (group_in_node_eq _ _ n2) by done. f_equal. f_equal.
    apply group_in_node_loop_true. exists g. split_and!; [|done..].
    rewrite Hcgs. apply elem_of_app. by left.
  - intros program1 self other group_type g w1 program2 Hne Hcall [n Hn].
    apply create_callback_group_Returns in Hcall as (-> & no & n1 & _ & Hn1 & Hg).
    destruct (node_run program2 _ other n1 Hn1) as (n2 & ext & Hn2 & _ & Hcgs).
    rewrite (group_in_node_eq _ _ n) by done. f_equal. f_equal.
    apply not_true_iff_false. rewrite group_in_node_loop_true.
    intros (r & Hr & _ & [= <-]). apply Hne.
    assert (wf (run program2 (step (run program1 initial)
                                (CreateCallbackGroup other group_type)))) as Hwf.
    { apply wf_run. eapply wf_evolves; [apply wf_reachable|apply step_evolves]. }
    eapply (wf_disjoint _ Hwf self other n n2 g); [done..|].
    rewrite Hcgs. apply elem_of_app. by left.
Qed.

Lemma group_in_node_witness :
  group_in_node 1 (Some 2)
    (run [ReleaseGroup 0] (create_callback_group 1 Reentrant two_nodes).2)
  = (Returns true,
     run [ReleaseGroup 0] (create_callback_group 1 Reentrant two_nodes).2)
  ∧ group_in_node 0 (Some 2)
      (run [ReleaseGroup 2] (create_callback_group 1 Reentrant two_nodes).2)
    = (Returns false,
       run [ReleaseGroup 2] (create_callback_group 1 Reentrant two_nodes).2).
Proof.
  split.
  - apply (proj1 (proj2 group_in_node_spec) two_nodes 1 Reentrant 2 _
             [ReleaseGroup 0]).
    + by vm_compute.
    + vm_compute. eauto.
  - apply (proj2 (proj2 group_in_node_spec)
             [NewNode "a" 0 0; NewNode "b" 0 0] 0 1 Reentrant 2 _
             [ReleaseGroup 2]).
    + lia.
    + by vm_compute.
    + vm_compute. eauto.
Defined.

(** A reference whose group was destroyed is skipped: the group is no
    longer found, and the call still returns. *)
Example expired_group_is_skipped :
  group_in_node 1 (Some 2)
    (run [CreateCallbackGroup 1 Reentrant] two_nodes)
  = (Returns true, run [CreateCallbackGroup 1 Reentrant] two_nodes)
  ∧ group_in_node 1 (Some 2)
      (run [CreateCallbackGroup 1 Reentrant; ReleaseGroup 2] two_nodes)
    = (Returns false,
       run [CreateCallbackGroup 1 Reentrant; ReleaseGroup 2] two_nodes)
  ∧ callback_groups_ <$>
      nodes (run [CreateCallbackGroup 1 Reentrant; ReleaseGroup 2] two_nodes) !! 1
    = Some [1; 2].
Proof. by vm_compute. Qed.

(** ** Entity creation, call by call *)

Ltac run_call_with Hn :=
  unfold_call; simpl; repeat (rewrite Hn; simpl).

(** C4: a creation call that is given a group for which [group_in_node]
    is false throws the error the spec calls [GroupNotOwned], and leaves
    every node (so every counter) and every callback group as it was. *)
Theorem create_with_foreign_group_throws w self n g :
  nodes w !! self = Some n →
  group_in_node self (Some g) w = (Returns false, w) →
  (∀ topic_name queue_size, ∃ e w',
     create_subscription self topic_name queue_size (Some g) w = (Throws e, w')
     ∧ GroupNotOwned e ∧ nodes w' = nodes w ∧ groups w' = groups w)
  ∧ (∀ period, ∃ e w',
       create_wall_timer self period (Some g) w = (Throws e, w')
       ∧ GroupNotOwned e ∧ nodes w' = nodes w ∧ groups w' = groups w)
  ∧ (∀ service_name, ∃ e w',
       create_client self service_name (Some g) w = (Throws e, w')
       ∧ GroupNotOwned e ∧ nodes w' = nodes w ∧ groups w' = groups w)
  ∧ (∀ service_name, ∃ e w',
       create_service self service_name (Some g) w = (Throws e, w')
       ∧ GroupNotOwned e ∧ nodes w' = nodes w ∧ groups w' = groups w).
Proof.
  intros Hn Hnot. rewrite (group_in_node_eq w self n) in Hnot by done.
  injection Hnot as Hloop.
  split_and!; intros; eexists _, _; run_call_with Hn; rewrite Hloop; simpl;
    (split_and!; [reflexivity| |reflexivity|reflexivity]).
  - by exists "timer".
  - by exists "timer".
  - by exists "client".
  - by exists "service".
Qed.

Lemma create_with_foreign_group_witness :
  ∃ e w', create_client 0 "add_two_ints" (Some 1) node_and_foreign_group
          = (Throws e, w')
          ∧ GroupNotOwned e
          ∧ nodes w' = nodes node_and_foreign_group
          ∧ groups w' = groups node_and_foreign_group.
Proof.
  eapply (create_with_foreign_group_throws node_and_foreign_group 0 _ 1);
    vm_compute; reflexivity.
Defined.

Lemma size_t_incr_small c : (0 ≤ c < SIZE_MAX → size_t_incr c = c + 1)%Z.
Proof.
  unfold SIZE_MAX, size_t_incr. intros Hc. apply Z.mod_small. lia.
Qed.

(** C5: in every world a program reaches, a creation call without a group
    returns the new entity, adds it to the set for its kind of the node's
    default callback group (and to nothing else), and increments the
    node's counter for that kind by one, as a [size_t] is incremented; the
    other counters, and the other nodes, stay as they were. *)
Theorem create_without_group_binds_to_default program self n :
  let w := run program initial in
  nodes w !! self = Some n →
  ∃ d cg,
    default_callback_group_ n = Some d ∧ groups w !! d = Some cg
    ∧ (∀ topic_name queue_size,
         create_subscription self topic_name queue_size None w
         = (Returns (next_addr w),
            mkWorld (S (rmw_handles w)) (S (next_addr w))
              (<[d := add_subscription (next_addr w) cg]> (groups w))
              (<[self := with_number_of_subscriptions_
                           (size_t_incr (number_of_subscriptions_ n)) n]>
                 (nodes w))))
    ∧ (∀ period,
         create_wall_timer self period None w
         = (Returns (next_addr w),
            mkWorld (rmw_handles w) (S (next_addr w))
              (<[d := add_timer (next_addr w) cg]> (groups w))
              (<[self := with_number_of_timers_
                           (size_t_incr (number_of_timers_ n)) n]>
                 (nodes w))))
    ∧ (∀ service_name,
         create_client self service_name None w
         = (Returns (next_addr w),
            mkWorld (S (rmw_handles w)) (S (next_addr w))
              (<[d := add_client (next_addr w) cg]> (groups w))
              (<[self := with_number_of_clients_
                           (size_t_incr (number_of_clients_ n)) n]>
                 (nodes w))))
    ∧ (∀ service_name,
         create_service self service_name None w
         = (Returns (next_addr w),
            mkWorld (S (rmw_handles w)) (S (next_addr w))
              (<[d := add_service (next_addr w) cg]> (groups w))
              (<[self := with_number_of_services_
                           (size_t_incr (number_of_services_ n)) n]>
                 (nodes w))))
    ∧ (∀ c, counters (with_number_of_subscriptions_ c n)
            = (c, number_of_timers_ n, number_of_services_ n, number_of_clients_ n)
          ∧ counters (with_number_of_timers_ c n)
            = (number_of_subscriptions_ n, c, number_of_services_ n, number_of_clients_ n)
          ∧ counters (with_number_of_services_ c n)
            = (number_of_subscriptions_ n, number_of_timers_ n, c, number_of_clients_ n)
          ∧ counters (with_number_of_clients_ c n)
            = (number_of_subscriptions_ n, number_of_timers_ n, number_of_services_ n, c))
    ∧ (∀ c, 0 ≤ c < SIZE_MAX → size_t_incr c = c + 1)%Z.
Proof.
  intros w Hn.
  destruct (wf_default w (wf_reachable program) self n Hn)
    as (d & cg & Hd & _ & Hg & _).
  exists d, cg. split_and!; try done;
    try (intros; run_call_with Hn; rewrite Hd, Hg; simpl; by rewrite Hn).
  apply size_t_incr_small.
Qed.

Lemma create_without_group_witness :
  (create_client 0 "add_two_ints" None one_node).1 = Returns 1
  ∧ counters <$> nodes (create_client 0 "add_two_ints" None one_node).2 !! 0
    = Some (0, 0, 0, 1)%Z
  ∧ client_ptrs_ <$> groups (create_client 0 "add_two_ints" None one_node).2 !! 0
    = Some [1].
Proof.
  destruct (create_without_group_binds_to_default [NewNode "n" 0 0] 0
              (mkNode "n" 0 (Some 0) [0] (Some 0) 0 0 0 0 ∅) eq_refl)
    as (d & cg & Hd & Hcg & _ & _ & Hclient & _).
  change (run [NewNode "n" 0 0] initial) with one_node in *.
  rewrite Hclient. vm_compute in Hd, Hcg. simplify_eq. by vm_compute.
Defined.

(** C7: [create_publisher] leaves every node (so every counter) and every
    callback group, the default one included, as they were; it returns the
    new publisher. *)
Theorem create_publisher_frame w self topic_name queue_size :
  nodes (create_publisher self topic_name queue_size w).2 = nodes w
  ∧ groups (create_publisher self topic_name queue_size w).2 = groups w
  ∧ (create_publisher self topic_name queue_size w).1
    = match nodes w !! self with
      | Some _ => Returns (next_addr w)
      | None => Undefined
      end
  ∧ nodes (step w (CreatePublisher self topic_name queue_size)) = nodes w
  ∧ groups (step w (CreatePublisher self topic_name queue_size)) = groups w.
Proof.
  unfold_call; simpl. by destruct (nodes w !! self).
Qed.

(** ** Node construction *)

Lemma step_NewNode w node_name context indeterminate :
  step w (NewNode node_name context indeterminate)
  = (new_Node node_name context indeterminate w).2.
Proof. unfold step, call, discard, bind. by rewrite new_Node_eq. Qed.

Lemma step_NewNodeDefaultContext w node_name indeterminate :
  step w (NewNodeDefaultContext node_name indeterminate)
  = (new_Node_default_context node_name indeterminate w).2.
Proof.
  unfold step, call, discard, new_Node_default_context, bind at 1 2 3, make_shared.
  by rewrite !new_Node_eq.
Qed.

(** Once a node has its default group at the head of its registry, every
    program keeps it there, live. *)
Lemma default_group_kept w1 self n1 d program :
  wf w1 →
  nodes w1 !! self = Some n1 →
  callback_groups_ n1 = [d] →
  default_callback_group_ n1 = Some d →
  ∃ n2 cg,
    nodes (run program w1) !! self = Some n2
    ∧ default_callback_group_ n2 = Some d
    ∧ head (callback_groups_ n2) = Some d
    ∧ groups (run program w1) !! d = Some cg
    ∧ type_ cg = MutuallyExclusive
    ∧ group_in_node self (Some d) (run program w1)
      = (Returns true, run program w1).
Proof.
  intros Hwf Hn1 Hcgs Hd.
  destruct (node_run program w1 self n1 Hn1) as (n2 & ext & Hn2 & Hd2 & Hcgs2).
  destruct (wf_default _ (wf_run program w1 Hwf) self n2 Hn2)
    as (d' & cg & Hd' & Hhd & Hg & Hty).
  assert (d' = d) as -> by congruence.
  exists n2, cg. split_and!; try done.
  rewrite (group_in_node_eq _ _ n2) by done. f_equal. f_equal.
  apply group_in_node_loop_true. exists d. split_and!; [|by eexists|done].
  rewrite Hcgs2, Hcgs. by left.
Qed.

(** C9: each constructor creates the default callback group, of type
    [MutuallyExclusive], as a new object and as the only, so the first,
    entry of the node's registry, and holds it in
    [default_callback_group_]; after every program that follows, the node
    still holds it, it still is the first entry, it is live, and
    [group_in_node] holds of it. *)
Theorem default_callback_group_kept program1 node_name context indeterminate :
  (∃ self d w1,
     new_Node node_name context indeterminate (run program1 initial)
     = (Returns self, w1)
     ∧ groups (run program1 initial) !! d = None
     ∧ (∃ n1, nodes w1 !! self = Some n1 ∧ callback_groups_ n1 = [d]
              ∧ default_callback_group_ n1 = Some d)
     ∧ ∀ program2, ∃ n2 cg,
         nodes (run program2 w1) !! self = Some n2
         ∧ default_callback_group_ n2 = Some d
         ∧ head (callback_groups_ n2) = Some d
         ∧ groups (run program2 w1) !! d = Some cg
         ∧ type_ cg = MutuallyExclusive
         ∧ group_in_node self (Some d) (run program2 w1)
           = (Returns true, run program2 w1))
  ∧ (∃ self d w1,
       new_Node_default_context node_name indeterminate (run program1 initial)
       = (Returns self, w1)
       ∧ groups (run program1 initial) !! d = None
       ∧ (∃ n1, nodes w1 !! self = Some n1 ∧ callback_groups_ n1 = [d]
                ∧ default_callback_group_ n1 = Some d)
       ∧ ∀ program2, ∃ n2 cg,
           nodes (run program2 w1) !! self = Some n2
           ∧ default_callback_group_ n2 = Some d
           ∧ head (callback_groups_ n2) = Some d
           ∧ groups (run program2 w1) !! d = Some cg
           ∧ type_ cg = MutuallyExclusive
           ∧ group_in_node self (Some d) (run program2 w1)
             = (Returns true, run program2 w1)).
Proof.
  pose proof (wf_reachable program1) as Hwf0.
  set (w0 := run program1 initial) in *.
  split.
  - pose proof (wf_evolves _ _ Hwf0
                  (step_evolves w0 (NewNode node_name context indeterminate)))
      as Hwf1.
    rewrite step_NewNode in Hwf1. revert Hwf1. rewrite new_Node_eq. simpl.
    intros Hwf1. eexists _, (next_addr w0), _. split; [done|]. split.
    { apply eq_None_not_Some. intros Hlive.
      apply (wf_groups_below _ Hwf0) in Hlive. lia. }
    split.
    { eexists. simpl. by rewrite lookup_snoc. }
    intros program2.
    eapply (default_group_kept _ _ _ _ program2 Hwf1);
      [simpl; by rewrite lookup_snoc|done..].
  - pose proof (wf_evolves _ _ Hwf0
                  (step_evolves w0 (NewNodeDefaultContext node_name indeterminate)))
      as Hwf1.
    rewrite step_NewNodeDefaultContext in Hwf1. revert Hwf1.
    unfold new_Node_default_context, bind, make_shared.
    rewrite new_Node_eq. simpl.
    intros Hwf1. eexists _, (S (next_addr w0)), _. split; [done|]. split.
    { apply eq_None_not_Some. intros Hlive.
      apply (wf_groups_below _ Hwf0) in Hlive. lia. }
    split.
    { eexists. simpl. by rewrite lookup_snoc. }
    intros program2.
    eapply (default_group_kept _ _ _ _ program2 Hwf1);
      [simpl; by rewrite lookup_snoc|done..].
Qed.

(** C10 fails on the code: the constructor initialises
    [number_of_subscriptions_], [number_of_timers_] and
    [number_of_services_] to zero and leaves [number_of_clients_] with the
    indeterminate content of its storage; where that content is 7, the
    counter reads 7 after construction and 8 after the first
    [create_client]. *)
Theorem new_Node_counters :
  (∀ node_name context indeterminate w,
     counters <$> nodes (new_Node node_name context indeterminate w).2
                    !! length (nodes w)
     = Some (0, 0, 0, indeterminate mod 2 ^ 64)%Z)
  ∧ counters <$> nodes (run [NewNode "n" 0 7] initial) !! 0
    = Some (0, 0, 0, 7)%Z
  ∧ counters <$> nodes (run [NewNode "n" 0 7;
                             CreateClient 0 "add_two_ints" None] initial) !! 0
    = Some (0, 0, 0, 8)%Z.
Proof.
  split; [|by vm_compute].
  intros. rewrite new_Node_eq. simpl. by rewrite lookup_snoc.
Qed.

(** * Further properties of the parameter store *)

(** ** The order [std::map] iterates in *)

Lemma ascii_compare_refl a : Ascii.compare a a = Eq.
Proof. apply N.compare_refl. Qed.

Lemma ascii_compare_Lt_trans a b c :
  Ascii.compare a b = Lt → Ascii.compare b c = Lt → Ascii.compare a c = Lt.
Proof.
  unfold Ascii.compare. rewrite !N.compare_lt_iff. apply N.lt_trans.
Qed.

Lemma string_compare_trans a b c :
  String.compare a b ≠ Gt → String.compare b c ≠ Gt → String.compare a c ≠ Gt.
Proof.
  revert b c. induction a as [|x a IH]; intros [|y b] [|z c]; simpl; try done.
  destruct (Ascii.compare x y) eqn:Hxy; [|destruct (Ascii.compare y z) eqn:Hyz|];
    try done.
  - apply Ascii.compare_eq_iff in Hxy as ->.
    destruct (Ascii.compare y z); [apply IH|done..].
  - apply Ascii.compare_eq_iff in Hyz as ->. by rewrite Hxy.
  - by rewrite (ascii_compare_Lt_trans x y z).
Qed.

Lemma string_leb_spec a b : String.leb a b = true ↔ String.compare a b ≠ Gt.
Proof. unfold String.leb. by destruct (String.compare a b). Qed.

Lemma string_leb_trans a b c :
  String.leb a b = true → String.leb b c = true → String.leb a c = true.
Proof. rewrite !string_leb_spec. apply string_compare_trans. Qed.

Lemma string_ltb_leb a b :
  String.ltb a b = true ↔ String.leb a b = true ∧ a ≠ b.
Proof.
  unfold String.ltb, String.leb. split.
  - destruct (String.compare a b) eqn:Hc; try done. intros _. split; [done|].
    intros ->. revert Hc. clear. induction b as [|x b IH]; simpl; [done|].
    by rewrite ascii_compare_refl.
  - intros [Hle Hne]. destruct (String.compare a b) eqn:Hc; try done.
    by apply String.compare_eq_iff in Hc.
Qed.

Section iteration_order.
Context {V : Type}.
Implicit Types (m : gmap string V).

#[local] Instance key_le_total : Total (@key_le V).
Proof. intros a b. apply String.leb_total. Qed.

#[local] Instance key_le_trans : Transitive (@key_le V).
Proof. intros a b c. apply string_leb_trans. Qed.

Lemma map_items_sorted m : StronglySorted key_le (map_items m).
Proof. apply StronglySorted_merge_sort; apply _. Qed.

Lemma map_items_NoDup_keys m : NoDup (map_items m).*1.
Proof. rewrite map_items_Permutation. apply NoDup_fst_map_to_list. Qed.

(** The entries in key order are the only sorted listing of the map. *)
Lemma map_items_unique m (l : list (string * V)) :
  l ≡ₚ map_to_list m → StronglySorted key_le l → l = map_items m.
Proof.
  intros Hperm Hsorted.
  apply (StronglySorted_unique_strong key_le); [|done|apply map_items_sorted|].
  - intros [k1 v1] [k2 v2] H1 H2 Hle Hge.
    rewrite Hperm in H1. apply elem_of_map_to_list in H1.
    apply elem_of_map_items in H2.
    assert (k1 = k2) as -> by by apply String.leb_antisym.
    congruence.
  - by rewrite map_items_Permutation.
Qed.

Lemma StronglySorted_filter {A} (R : relation A) (P : A → Prop)
    `{!∀ x, Decision (P x)} (l : list A) :
  StronglySorted R l → StronglySorted R (filter P l).
Proof.
  induction 1 as [|x l Hl IH Hx]; [constructor|].
  rewrite filter_cons. case_decide; [|done].
  constructor; [done|]. rewrite Forall_forall in Hx |- *.
  intros y Hy. apply list_elem_of_filter in Hy as [_ Hy]. auto.
Qed.

Lemma map_to_list_filter_Permutation (P : string * V → Prop)
    `{!∀ x, Decision (P x)} m :
  map_to_list (filter P m) ≡ₚ filter P (map_to_list m).
Proof.
  apply NoDup_Permutation.
  - apply NoDup_map_to_list.
  - apply NoDup_filter, NoDup_map_to_list.
  - intros [k v]. rewrite elem_of_map_to_list, list_elem_of_filter,
      elem_of_map_to_list, map_lookup_filter_Some. tauto.
Qed.

(** Iterating a part of the map is skipping the rest in the loop. *)
Lemma map_items_filter (P : string * V → Prop) `{!∀ x, Decision (P x)} m :
  filter P (map_items m) = map_items (filter P m).
Proof.
  apply map_items_unique.
  - by rewrite map_to_list_filter_Permutation, map_items_Permutation.
  - apply StronglySorted_filter, map_items_sorted.
Qed.

Lemma map_items_empty : map_items (∅ : gmap string V) = [].
Proof.
  apply Permutation_nil_r. by rewrite map_items_Permutation, map_to_list_empty.
Qed.

Lemma map_items_singleton k (v : V) : map_items ({[k := v]} : gmap string V) = [(k, v)].
Proof.
  apply Permutation_singleton_r.
  by rewrite map_items_Permutation, map_to_list_singleton.
Qed.

End iteration_order.

Lemma requested_true names key : requested names key = true ↔ key ∈ names.
Proof.
  unfold requested. rewrite any_of_true. split.
  - intros (x & Hx & Heq). by apply String.eqb_eq in Heq as ->.
  - intros Hin. exists key. split; [done|]. apply String.eqb_refl.
Qed.

Lemma filter_requested {V} names (l : list (string * V)) :
  filter (λ kv, requested names kv.1 = true) l = filter (λ kv, kv.1 ∈ names) l.
Proof. apply list_filter_iff. intros kv. apply requested_true. Qed.

Lemma keys_strictly_increasing {V} (l : list (string * V)) :
  StronglySorted key_le l → NoDup l.*1 →
  StronglySorted (λ a b, String.ltb a b = true) l.*1.
Proof.
  induction 1 as [|kv l Hl IH Hk]; simpl; [constructor|].
  destruct kv as [k v]. rewrite NoDup_cons. intros [Hnotin Hnodup].
  constructor; [by apply IH|].
  apply Forall_forall. intros k' Hk'.
  apply string_ltb_leb. split.
  - apply list_elem_of_fmap in Hk' as ([k'' v'] & -> & Hin).
    by apply (proj1 (Forall_forall _ _) Hk _ Hin).
  - intros Heq. apply Hnotin. simpl in *. by subst.
Qed.

Lemma get_parameters_eq (m : gmap string ParameterVariant) names :
  get_parameters m names = (map_items (filter (λ kv, kv.1 ∈ names) m)).*2.
Proof.
  unfold get_parameters.
  etrans; [apply (foldl_push_if (λ kv : string * ParameterVariant,
                                   requested names kv.1) snd)|].
  simpl. by rewrite filter_requested, map_items_filter.
Qed.

Lemma describe_parameters_eq (m : gmap string ParameterVariant) names :
  describe_parameters m names
  = (λ kv, {| descriptor_name := kv.1; parameter_type := get_type kv.2 |})
    <$> map_items (filter (λ kv, kv.1 ∈ names) m).
Proof.
  unfold describe_parameters.
  etrans; [apply (foldl_push_if (λ kv : string * ParameterVariant,
                                   requested names kv.1)
                    (λ kv, {| descriptor_name := kv.1;
                              parameter_type := get_type kv.2 |}))|].
  simpl. by rewrite filter_requested, map_items_filter.
Qed.

Lemma get_parameter_types_eq (m : gmap string ParameterVariant) names :
  get_parameter_types m names
  = (λ kv, if requested names kv.1 then get_type kv.2 else PARAMETER_NOT_SET)
    <$> map_items m.
Proof.
  unfold get_parameter_types.
  assert (∀ (l : list (string * ParameterVariant)) acc,
    foldl (λ results kv,
             if requested names kv.1
             then results ++ [get_type kv.2]
             else results ++ [PARAMETER_NOT_SET]) acc l
    = acc ++ ((λ kv, if requested names kv.1 then get_type kv.2
                     else PARAMETER_NOT_SET) <$> l)) as Hloop.
  { induction l as [|kv l IH]; intros acc; simpl; [by rewrite app_nil_r|].
    rewrite IH. by destruct (requested names kv.1); rewrite <- app_assoc. }
  by rewrite Hloop.
Qed.

Lemma map_filter_none {V} (P : string * V → Prop) `{!∀ x, Decision (P x)}
    (m : gmap string V) :
  (∀ i x, m !! i = Some x → ¬ P (i, x)) → filter P m = ∅.
Proof.
  intros Hnone. apply map_empty. intros i.
  apply map_lookup_filter_None. right. intros x Hx. by apply Hnone.
Qed.

(** ** The getters *)

(** X1: [get_parameters(names)] returns the values of exactly the stored
    entries whose key is among [names], each once and in increasing key
    order; a value is returned if and only if it is stored under a
    requested name, so a requested name that is not set is left out. *)
Theorem get_parameters_selects (m : gmap string ParameterVariant) names :
  get_parameters m names = (map_items (filter (λ kv, kv.1 ∈ names) m)).*2
  ∧ (∀ v, v ∈ get_parameters m names ↔ ∃ k, k ∈ names ∧ m !! k = Some v)
  ∧ length (get_parameters m names) = size (filter (λ kv, kv.1 ∈ names) m)
  ∧ length (get_parameters m names) ≤ size m.
Proof.
  rewrite get_parameters_eq. split_and!; [done| | |].
  - intros v. rewrite list_elem_of_fmap. split.
    + intros ([k v'] & -> & Hin). apply elem_of_map_items in Hin.
      apply map_lookup_filter_Some in Hin as [? ?]. by exists k.
    + intros (k & Hk & Hv). exists (k, v). split; [done|].
      apply elem_of_map_items. by apply map_lookup_filter_Some.
  - by rewrite length_fmap, length_map_items.
  - rewrite length_fmap, length_map_items. apply map_size_filter.
Qed.

Lemma filter_single_key {V} (m : gmap string V) k :
  filter (λ kv, kv.1 ∈ [k]) m
  = match m !! k with Some v => {[k := v]} | None => ∅ end.
Proof.
  destruct (m !! k) as [v|] eqn:Hk.
  - apply map_eq. intros i. apply option_eq. intros x.
    rewrite map_lookup_filter_Some, lookup_singleton_Some. simpl.
    rewrite list_elem_of_singleton. split; [intros [? ->]|intros [<- <-]];
      split; congruence.
  - apply map_filter_none. intros i x Hi. simpl.
    rewrite list_elem_of_singleton. congruence.
Qed.

Lemma get_parameters_single (m : gmap string ParameterVariant) k :
  get_parameters m [k] = match m !! k with Some v => [v] | None => [] end.
Proof.
  rewrite get_parameters_eq, filter_single_key.
  destruct (m !! k); by rewrite ?map_items_singleton, ?map_items_empty.
Qed.

Lemma describe_parameters_single (m : gmap string ParameterVariant) k :
  describe_parameters m [k]
  = match m !! k with
    | Some v => [{| descriptor_name := k; parameter_type := get_type v |}]
    | None => []
    end.
Proof.
  rewrite describe_parameters_eq, filter_single_key.
  destruct (m !! k); by rewrite ?map_items_singleton, ?map_items_empty.
Qed.

(** X2: for a single name, [get_parameters] and [describe_parameters] are
    a lookup: the stored value, or its descriptor, if the name is set and
    nothing otherwise; an empty request and an empty store give an empty
    result. *)
Theorem get_parameters_lookup (m : gmap string ParameterVariant) k names :
  get_parameters m [k] = match m !! k with Some v => [v] | None => [] end
  ∧ describe_parameters m [k]
    = match m !! k with
      | Some v => [{| descriptor_name := k; parameter_type := get_type v |}]
      | None => []
      end
  ∧ get_parameters m [] = []
  ∧ get_parameters ∅ names = []
  ∧ describe_parameters m [] = []
  ∧ describe_parameters ∅ names = [].
Proof.
  split; [apply get_parameters_single|].
  split; [apply describe_parameters_single|].
  rewrite !get_parameters_eq, !describe_parameters_eq.
  assert (filter (λ kv : string * ParameterVariant, kv.1 ∈ []) m = ∅) as ->.
  { apply map_filter_none. intros i x Hi. simpl. apply not_elem_of_nil. }
  by rewrite map_filter_empty, map_items_empty.
Qed.

Lemma filter_requested_set {V} (m : gmap string V) (names names' : list string) :
  (∀ k, k ∈ names ↔ k ∈ names') →
  filter (λ kv, kv.1 ∈ names) m = filter (λ kv, kv.1 ∈ names') m.
Proof. intros Hset. apply map_filter_ext. intros i x _. apply Hset. Qed.

Lemma requested_set (names names' : list string) key :
  (∀ k, k ∈ names ↔ k ∈ names') → requested names key = requested names' key.
Proof.
  intros Hset. apply eq_true_iff_eq. rewrite !requested_true. apply Hset.
Qed.

(** X3: the three getters read [names] as a set: two requests with the same
    names, in any order and with any repetitions, give the same result. *)
Theorem getters_read_names_as_set (m : gmap string ParameterVariant)
    names names' :
  (∀ k, k ∈ names ↔ k ∈ names') →
  get_parameters m names = get_parameters m names'
  ∧ describe_parameters m names = describe_parameters m names'
  ∧ get_parameter_types m names = get_parameter_types m names'.
Proof.
  intros Hset. rewrite !get_parameters_eq, !describe_parameters_eq,
    !get_parameter_types_eq, (filter_requested_set m names names') by done.
  split_and!; [done..|].
  apply list_fmap_ext. intros _ kv _. by rewrite (requested_set names names').
Qed.

Lemma getters_read_names_as_set_witness :
  get_parameters example_store ["a.x"; "a.b"; "a.x"]
  = get_parameters example_store ["a.b"; "a.x"]
  ∧ describe_parameters example_store ["a.x"; "a.b"; "a.x"]
    = describe_parameters example_store ["a.b"; "a.x"]
  ∧ get_parameter_types example_store ["a.x"; "a.b"; "a.x"]
    = get_parameter_types example_store ["a.b"; "a.x"].
Proof.
  apply (getters_read_names_as_set example_store
           ["a.x"; "a.b"; "a.x"] ["a.b"; "a.x"]).
  intros k. rewrite !elem_of_cons, !elem_of_nil. tauto.
Defined.

(** X4: [describe_parameters(names)] returns one descriptor for each value
    that [get_parameters(names)] returns, in the same order, with that
    value's type; a descriptor is returned if and only if its name is
    requested and stored; the names of the descriptors are strictly
    increasing. *)
Theorem describe_parameters_aligned (m : gmap string ParameterVariant) names :
  parameter_type <$> describe_parameters m names
  = get_type <$> get_parameters m names
  ∧ (∀ d, d ∈ describe_parameters m names ↔
          descriptor_name d ∈ names ∧
          ∃ v, m !! descriptor_name d = Some v ∧ parameter_type d = get_type v)
  ∧ StronglySorted (λ a b, String.ltb a b = true)
      (descriptor_name <$> describe_parameters m names).
Proof.
  rewrite describe_parameters_eq, get_parameters_eq. split_and!.
  - rewrite <- !list_fmap_compose. by apply list_fmap_ext.
  - intros d. rewrite list_elem_of_fmap. split.
    + intros ([k v] & -> & Hin). apply elem_of_map_items in Hin.
      apply map_lookup_filter_Some in Hin as [? ?]. simpl. eauto.
    + intros (Hd & v & Hv & Hty). exists (descriptor_name d, v). split.
      * destruct d. simpl in *. by rewrite Hty.
      * apply elem_of_map_items. by apply map_lookup_filter_Some.
  - rewrite <- list_fmap_compose.
    apply (keys_strictly_increasing (map_items _)).
    + apply map_items_sorted.
    + apply map_items_NoDup_keys.
Qed.

(** X5: when every stored key is requested, [get_parameter_types(names)]
    returns the types of all the stored values in increasing key order,
    which are the types of the values [get_parameters(names)] returns. *)
Theorem get_parameter_types_complete_request
    (m : gmap string ParameterVariant) names :
  (∀ k, is_Some (m !! k) → k ∈ names) →
  get_parameter_types m names = get_type <$> (map_items m).*2
  ∧ get_parameter_types m names = get_type <$> get_parameters m names.
Proof.
  intros Hall.
  assert (get_parameter_types m names = get_type <$> (map_items m).*2) as Heq.
  { rewrite get_parameter_types_eq, <- list_fmap_compose.
    apply list_fmap_ext. intros i [k v] Hin. simpl.
    apply list_elem_of_lookup_2, elem_of_map_items in Hin.
    by rewrite (proj2 (requested_true names k)) by eauto. }
  split; [done|]. rewrite Heq, get_parameters_eq.
  rewrite map_filter_id; [done|]. intros k v Hk. simpl. eauto.
Qed.

Lemma get_parameter_types_complete_request_witness :
  get_parameter_types example_store ["a.x"; "a.b.c"; "a.b"]
  = get_type <$> (map_items example_store).*2
  ∧ get_parameter_types example_store ["a.x"; "a.b.c"; "a.b"]
    = get_type <$> get_parameters example_store ["a.x"; "a.b.c"; "a.b"].
Proof.
  apply (get_parameter_types_complete_request example_store
           ["a.x"; "a.b.c"; "a.b"]).
  intros k [v Hv]. unfold example_store in Hv.
  rewrite !lookup_insert_Some, lookup_empty in Hv.
  rewrite !elem_of_cons.
  destruct Hv as [[<- _]|[_ [[<- _]|[_ [[<- _]|[_ ?]]]]]]; [tauto..|done].
Defined.

(** ** Setting parameters *)

Lemma dom_assign_all parameters (m : gmap string ParameterVariant) :
  dom (assign_all parameters m) = dom m ∪ list_to_set (name <$> parameters).
Proof.
  unfold assign_all. revert m.
  induction parameters as [|p ps IH]; intros m; simpl.
  - by rewrite (right_id_L ∅ (∪)).
  - rewrite IH, dom_insert_L. apply set_eq. intros x.
    rewrite !elem_of_union, elem_of_singleton. tauto.
Qed.

(** X6: after [set_parameters(parameters)] a key holds the value of the
    last entry of the batch with that name, and the value it had before if
    the batch does not name it; the keys of the store are those it had and
    the names of the batch, so no key is ever removed. *)
Theorem set_parameters_last_writer_wins
    (m : gmap string ParameterVariant) parameters :
  (∀ k, (set_parameters m parameters).1 !! k
        = match last (filter (λ p, name p = k) parameters) with
          | Some p => Some (from_parameter p)
          | None => m !! k
          end)
  ∧ dom (set_parameters m parameters).1
    = dom m ∪ list_to_set (name <$> parameters).
Proof.
  rewrite set_parameters_eq. simpl. split.
  - intros k. apply assign_all_lookup.
  - apply dom_assign_all.
Qed.

(** X7: [set_parameters] reports one successful result for each entry of
    the batch, and setting a batch is setting its parts one after the
    other: the maps compose and the results are appended; the empty batch
    changes nothing. *)
Theorem set_parameters_sequence (m : gmap string ParameterVariant)
    parameters1 parameters2 :
  (set_parameters m parameters1).2
  = replicate (length parameters1) {| successful := true |}
  ∧ set_parameters m (parameters1 ++ parameters2)
    = ((set_parameters (set_parameters m parameters1).1 parameters2).1,
       (set_parameters m parameters1).2
       ++ (set_parameters (set_parameters m parameters1).1 parameters2).2)
  ∧ set_parameters m [] = (m, []).
Proof.
  rewrite !set_parameters_eq. simpl. split_and!; [done| |done].
  unfold assign_all. by rewrite foldl_app, length_app, replicate_add.
Qed.

Lemma set_parameters_atomically_fst
    (m : gmap string ParameterVariant) parameters :
  (set_parameters_atomically m parameters).1 = (set_parameters m parameters).1.
Proof.
  rewrite set_parameters_atomically_eq, set_parameters_eq. simpl.
  by rewrite (assign_all_staged parameters m).
Qed.

(** X8: [set_parameters_atomically] and [set_parameters] leave the same
    map for the same batch, whatever the store held; the atomic call
    also is idempotent. *)
Theorem set_parameters_atomically_same_map
    (m : gmap string ParameterVariant) parameters :
  (set_parameters_atomically m parameters).1 = (set_parameters m parameters).1
  ∧ (set_parameters_atomically
       (set_parameters_atomically m parameters).1 parameters).1
    = (set_parameters_atomically m parameters).1.
Proof.
  split; [apply set_parameters_atomically_fst|].
  rewrite !set_parameters_atomically_eq. simpl.
  by rewrite (assoc_L (∪)), (idemp_L (∪)).
Qed.

(** X9: a parameter that is the last of its name in the batch is read back
    by [get_parameters] and described by [describe_parameters] exactly as
    it was set, after [set_parameters] and after
    [set_parameters_atomically]. *)
Theorem set_then_get_round_trip (m : gmap string ParameterVariant)
    before p after :
  name p ∉ name <$> after →
  let parameters := before ++ p :: after in
  get_parameters (set_parameters m parameters).1 [name p] = [from_parameter p]
  ∧ get_parameters (set_parameters_atomically m parameters).1 [name p]
    = [from_parameter p]
  ∧ describe_parameters (set_parameters m parameters).1 [name p]
    = [{| descriptor_name := name p;
          parameter_type := get_type (from_parameter p) |}].
Proof.
  intros Hlast parameters.
  assert ((set_parameters m parameters).1 !! name p = Some (from_parameter p))
    as Hp.
  { rewrite set_parameters_eq. simpl. rewrite assign_all_lookup.
    unfold parameters. rewrite filter_app, filter_cons_True by done.
    assert (filter (λ q, name q = name p) after = []) as ->.
    { clear -Hlast. induction after as [|q after IH]; [done|].
      simpl in Hlast. rewrite not_elem_of_cons in Hlast.
      destruct Hlast as [Hne Hlast].
      rewrite filter_cons_False by congruence. by apply IH. }
    by rewrite last_snoc. }
  rewrite set_parameters_atomically_fst.
  rewrite !get_parameters_single, describe_parameters_single. by rewrite Hp.
Qed.

Lemma set_then_get_round_trip_witness :
  get_parameters
    (set_parameters example_store
       [mkRclParameter "a.x" (BoolValue true);
        mkRclParameter "p" (IntegerValue 5);
        mkRclParameter "a.x" (StringValue "s")]).1 ["p"]
  = [mkParameterVariant "p" (IntegerValue 5)].
Proof.
  apply (set_then_get_round_trip example_store
           [mkRclParameter "a.x" (BoolValue true)]
           (mkRclParameter "p" (IntegerValue 5))
           [mkRclParameter "a.x" (StringValue "s")]).
  simpl. rewrite list_elem_of_singleton. discriminate.
Defined.

(** ** Listing parameters *)

Lemma count_append c (a b : string) :
  Str.count c (a +:+ b) = (Str.count c a + Str.count c b)%nat.
Proof.
  induction a as [|x a IH]; [done|]. rewrite append_cons. simpl.
  rewrite IH. lia.
Qed.

Lemma find_last_of_None c s : Str.count c s = 0%nat → Str.find_last_of c s = None.
Proof.
  induction s as [|a s IH]; simpl; [done|].
  destruct (Ascii.eqb a c); [done|]. intros Hs. by rewrite IH.
Qed.

(** [find_last_of] splits a string that holds [c] at its last [c]. *)
Lemma find_last_of_Some c s :
  Str.count c s ≠ 0%nat →
  ∃ q leaf, Str.find_last_of c s = Some (String.length q)
            ∧ s = q +:+ String c leaf ∧ Str.count c leaf = 0%nat.
Proof.
  induction s as [|a s IH]; simpl; [done|]. intros Hcount.
  destruct (decide (Str.count c s = 0%nat)) as [Hs|Hs].
  - rewrite (find_last_of_None c s Hs).
    destruct (Ascii.eqb a c) eqn:Ha; [|simpl in Hcount; lia].
    apply Ascii.eqb_eq in Ha as ->. by exists "", s.
  - destruct (IH Hs) as (q & leaf & -> & -> & Hleaf).
    by exists (String a q), leaf.
Qed.

Lemma substring_prefix (q rest : string) :
  String.substring 0 (String.length q) (q +:+ rest) = q.
Proof.
  induction q as [|a q IH].
  - rewrite append_nil. by destruct rest.
  - rewrite append_cons. simpl. by rewrite IH.
Qed.

Lemma list_parameters_eq (m : gmap string ParameterVariant) prefixes depth :
  list_parameters m prefixes depth
  = (λ kv, {| parameter_names := [kv.1];
              parameter_prefixes :=
                [Str.substr_to (Str.find_last_of "."%char kv.1) kv.1] |})
    <$> map_items (filter (λ kv, any_of prefixes (prefix_matches kv.1 depth) = true) m).
Proof.
  unfold list_parameters.
  etrans; [apply (foldl_push_if
                    (λ kv : string * ParameterVariant,
                       any_of prefixes (prefix_matches kv.1 depth)))|].
  simpl. by rewrite map_items_filter.
Qed.

Lemma filter_sublist_impl {A} (P Q : A → Prop)
    `{!∀ x, Decision (P x), !∀ x, Decision (Q x)} (l : list A) :
  (∀ x, P x → Q x) → filter P l `sublist_of` filter Q l.
Proof.
  intros Himpl. induction l as [|x l IH]; [done|].
  rewrite !filter_cons. destruct (decide (P x)) as [HP|HP].
  - rewrite decide_True by auto. by constructor.
  - case_decide; [by constructor|done].
Qed.

(** X10: every record [list_parameters] returns holds exactly one name, a
    stored key, and exactly one prefix, which is that key up to its last
    dot: the key is the prefix, a dot and a last component without
    dots. *)
Theorem list_parameters_record_shape (m : gmap string ParameterVariant)
    prefixes depth r :
  r ∈ list_parameters m prefixes depth →
  ∃ K q leaf,
    r = {| parameter_names := [K]; parameter_prefixes := [q] |}
    ∧ is_Some (m !! K)
    ∧ K = q +:+ "." +:+ leaf
    ∧ Str.count "."%char leaf = 0%nat.
Proof.
  rewrite list_parameters_eq, list_elem_of_fmap.
  intros ([K v] & -> & Hin). apply elem_of_map_items in Hin.
  apply map_lookup_filter_Some in Hin as [HK Hany]. simpl in *.
  apply any_of_true in Hany as (prefix & _ & Hmatch).
  apply prefix_matches_spec in Hmatch as (rest & HKeq & _).
  destruct (find_last_of_Some "."%char K) as (q & leaf & Hlast & Hsplit & Hleaf).
  { rewrite HKeq, count_append, append_cons. simpl. lia. }
  exists K, q, leaf. rewrite Hlast. simpl. split_and!; [|by eexists|done..].
  rewrite Hsplit at 2. by rewrite substring_prefix.
Qed.

Lemma list_parameters_record_shape_witness :
  ∃ K q leaf,
    {| parameter_names := ["a.b"]; parameter_prefixes := ["a"] |}
    = {| parameter_names := [K]; parameter_prefixes := [q] |}
    ∧ is_Some (example_store !! K)
    ∧ K = q +:+ "." +:+ leaf
    ∧ Str.count "."%char leaf = 0%nat.
Proof.
  apply (list_parameters_record_shape example_store ["a"] 2).
  vm_compute. left.
Defined.

(** X11: [list_parameters] returns nothing for depth 0 and for depth 1,
    whatever the prefixes and the store, and nothing for an empty list of
    prefixes or an empty store. *)
Theorem list_parameters_empty_results (m : gmap string ParameterVariant)
    prefixes depth :
  list_parameters m prefixes 0 = []
  ∧ list_parameters m prefixes 1 = []
  ∧ list_parameters m [] depth = []
  ∧ list_parameters ∅ prefixes depth = [].
Proof.
  rewrite !list_parameters_eq.
  assert (∀ d, (d ≤ 1)%N →
    filter (λ kv : string * ParameterVariant,
              any_of prefixes (prefix_matches kv.1 d) = true) m = ∅) as Hshallow.
  { intros d Hd. apply map_filter_none. intros K v _ Hany. simpl in Hany.
    apply any_of_true in Hany as (prefix & _ & Hmatch).
    apply prefix_matches_spec in Hmatch as (rest & _ & Hlt). lia. }
  rewrite !Hshallow by lia.
  assert (filter (λ kv : string * ParameterVariant,
                    any_of [] (prefix_matches kv.1 depth) = true) m = ∅) as ->.
  { by apply map_filter_none. }
  by rewrite map_filter_empty, map_items_empty.
Qed.

(** X12: asking for more never loses a match: with a larger depth and with
    more prefixes, [list_parameters] returns the same records and possibly
    more, in the same order. *)
Theorem list_parameters_monotone (m : gmap string ParameterVariant)
    prefixes prefixes' depth depth' :
  (depth ≤ depth')%N →
  (∀ prefix, prefix ∈ prefixes → prefix ∈ prefixes') →
  list_parameters m prefixes depth `sublist_of` list_parameters m prefixes' depth'.
Proof.
  intros Hdepth Hprefixes. rewrite !list_parameters_eq, <- !map_items_filter.
  apply fmap_sublist, filter_sublist_impl. intros [K v]. simpl.
  rewrite !any_of_true. intros (prefix & Hp & Hmatch). exists prefix.
  split; [auto|]. apply prefix_matches_spec.
  apply prefix_matches_spec in Hmatch as (rest & -> & Hlt).
  exists rest. split; [done|lia].
Qed.

Lemma list_parameters_monotone_witness :
  list_parameters example_store ["a"] 2
  `sublist_of` list_parameters example_store ["a.b"; "a"] 3.
Proof.
  apply (list_parameters_monotone example_store ["a"] ["a.b"; "a"] 2 3).
  - lia.
  - intros prefix. rewrite !elem_of_cons. tauto.
Defined.

(** X13: the names [list_parameters] returns are strictly increasing, so a
    key that matches several of the prefixes is listed once; there are at
    most as many records as stored keys. *)
Theorem list_parameters_names_increasing (m : gmap string ParameterVariant)
    prefixes depth :
  StronglySorted (λ a b, String.ltb a b = true)
    (listed_names (list_parameters m prefixes depth))
  ∧ length (list_parameters m prefixes depth) ≤ size m.
Proof.
  split.
  - rewrite listed_names_list_parameters, map_items_filter.
    apply keys_strictly_increasing; [apply map_items_sorted|apply map_items_NoDup_keys].
  - rewrite list_parameters_eq, length_fmap, length_map_items.
    apply map_size_filter.
Qed.

(** * Further properties of the nodes *)

(** ** Creation with a group of the node *)

(** X14: a creation call that is given a group for which [group_in_node]
    is true returns the new entity, adds it to the set for its kind of
    that group, and increments the counter for that kind as a [size_t] is
    incremented; every other callback group, so the default group when it
    is not the group given, stays as it was. *)
Theorem create_with_owned_group_binds w self n g :
  nodes w !! self = Some n →
  group_in_node self (Some g) w = (Returns true, w) →
  ∃ cg,
    groups w !! g = Some cg
    ∧ (∀ topic_name queue_size,
         create_subscription self topic_name queue_size (Some g) w
         = (Returns (next_addr w),
            mkWorld (S (rmw_handles w)) (S (next_addr w))
              (<[g := add_subscription (next_addr w) cg]> (groups w))
              (<[self := with_number_of_subscriptions_
                           (size_t_incr (number_of_subscriptions_ n)) n]>
                 (nodes w))))
    ∧ (∀ period,
         create_wall_timer self period (Some g) w
         = (Returns (next_addr w),
            mkWorld (rmw_handles w) (S (next_addr w))
              (<[g := add_timer (next_addr w) cg]> (groups w))
              (<[self := with_number_of_timers_
                           (size_t_incr (number_of_timers_ n)) n]>
                 (nodes w))))
    ∧ (∀ service_name,
         create_client self service_name (Some g) w
         = (Returns (next_addr w),
            mkWorld (S (rmw_handles w)) (S (next_addr w))
              (<[g := add_client (next_addr w) cg]> (groups w))
              (<[self := with_number_of_clients_
                           (size_t_incr (number_of_clients_ n)) n]>
                 (nodes w))))
    ∧ (∀ service_name,
         create_service self service_name (Some g) w
         = (Returns (next_addr w),
            mkWorld (S (rmw_handles w)) (S (next_addr w))
              (<[g := add_service (next_addr w) cg]> (groups w))
              (<[self := with_number_of_services_
                           (size_t_incr (number_of_services_ n)) n]>
                 (nodes w))))
    ∧ (∀ other, other ≠ g →
         (∀ topic_name queue_size,
            groups (create_subscription self topic_name queue_size (Some g) w).2
              !! other = groups w !! other)
         ∧ (∀ period,
              groups (create_wall_timer self period (Some g) w).2 !! other
              = groups w !! other)
         ∧ (∀ service_name,
              groups (create_client self service_name (Some g) w).2 !! other
              = groups w !! other)
         ∧ (∀ service_name,
              groups (create_service self service_name (Some g) w).2 !! other
              = groups w !! other)).
Proof.
  intros Hn Hin. rewrite (group_in_node_eq w self n) in Hin by done.
  injection Hin as Hloop.
  pose proof Hloop as Hlive.
  apply group_in_node_loop_true in Hlive as (r & _ & [cg Hg] & [= <-]).
  assert (∀ topic_name queue_size,
            create_subscription self topic_name queue_size (Some g) w
            = (Returns (next_addr w),
               mkWorld (S (rmw_handles w)) (S (next_addr w))
                 (<[g := add_subscription (next_addr w) cg]> (groups w))
                 (<[self := with_number_of_subscriptions_
                              (size_t_incr (number_of_subscriptions_ n)) n]>
                    (nodes w)))) as Hsub.
  { intros; run_call_with Hn; rewrite Hloop; simpl; rewrite Hg; simpl;
      by rewrite Hn. }
  assert (∀ period,
            create_wall_timer self period (Some g) w
            = (Returns (next_addr w),
               mkWorld (rmw_handles w) (S (next_addr w))
                 (<[g := add_timer (next_addr w) cg]> (groups w))
                 (<[self := with_number_of_timers_
                              (size_t_incr (number_of_timers_ n)) n]>
                    (nodes w)))) as Htimer.
  { intros; run_call_with Hn; rewrite Hloop; simpl; rewrite Hg; simpl;
      by rewrite Hn. }
  assert (∀ service_name,
            create_client self service_name (Some g) w
            = (Returns (next_addr w),
               mkWorld (S (rmw_handles w)) (S (next_addr w))
                 (<[g := add_client (next_addr w) cg]> (groups w))
                 (<[self := with_number_of_clients_
                              (size_t_incr (number_of_clients_ n)) n]>
                    (nodes w)))) as Hclient.
  { intros; run_call_with Hn; rewrite Hloop; simpl; rewrite Hg; simpl;
      by rewrite Hn. }
  assert (∀ service_name,
            create_service self service_name (Some g) w
            = (Returns (next_addr w),
               mkWorld (S (rmw_handles w)) (S (next_addr w))
                 (<[g := add_service (next_addr w) cg]> (groups w))
                 (<[self := with_number_of_services_
                              (size_t_incr (number_of_services_ n)) n]>
                    (nodes w)))) as Hservice.
  { intros; run_call_with Hn; rewrite Hloop; simpl; rewrite Hg; simpl;
      by rewrite Hn. }
  exists cg. split_and!; [done..|].
  intros other Hother. split_and!; intros;
    rewrite ?Hsub, ?Htimer, ?Hclient, ?Hservice; simpl;
    by rewrite lookup_insert_ne.
Qed.

Lemma create_with_owned_group_witness :
  (create_wall_timer 0 1000000 (Some 1) node_with_group).1 = Returns 2
  ∧ timer_ptrs_ <$>
      groups (create_wall_timer 0 1000000 (Some 1) node_with_group).2 !! 1
    = Some [2]
  ∧ timer_ptrs_ <$>
      groups (create_wall_timer 0 1000000 (Some 1) node_with_group).2 !! 0
    = Some []
  ∧ counters <$>
      nodes (create_wall_timer 0 1000000 (Some 1) node_with_group).2 !! 0
    = Some (0, 1, 0, 0)%Z.
Proof.
  destruct (create_with_owned_group_binds node_with_group 0
              (mkNode "n" 0 (Some 0) [0; 1] (Some 0) 0 0 0 0 ∅) 1)
    as (cg & Hcg & _ & Htimer & _).
  - by vm_compute.
  - by vm_compute.
  - rewrite Htimer. vm_compute in Hcg. simplify_eq. by vm_compute.
Defined.

(** X15: in every world a program reaches, passing the node's own default
    callback group to a creation call is the same as passing no group. *)
Theorem create_with_default_group_explicit program self n :
  let w := run program initial in
  nodes w !! self = Some n →
  (∀ topic_name queue_size,
     create_subscription self topic_name queue_size (default_callback_group_ n) w
     = create_subscription self topic_name queue_size None w)
  ∧ (∀ period,
       create_wall_timer self period (default_callback_group_ n) w
       = create_wall_timer self period None w)
  ∧ (∀ service_name,
       create_client self service_name (default_callback_group_ n) w
       = create_client self service_name None w)
  ∧ (∀ service_name,
       create_service self service_name (default_callback_group_ n) w
       = create_service self service_name None w).
Proof.
  intros w Hn.
  destruct (wf_default w (wf_reachable program) self n Hn)
    as (d & cg & Hd & Hhd & Hg & _).
  assert (group_in_node_loop (groups w) (callback_groups_ n) (Some d) = true)
    as Hloop.
  { apply group_in_node_loop_true. exists d. split_and!; [|by eexists|done].
    destruct (callback_groups_ n); simplify_eq/=. by left. }
  rewrite Hd. split_and!; intros; run_call_with Hn; rewrite Hloop; simpl;
    by rewrite Hd.
Qed.

Lemma create_with_default_group_explicit_witness :
  create_client 0 "add_two_ints" (Some 0) one_node
  = create_client 0 "add_two_ints" None one_node.
Proof.
  apply (create_with_default_group_explicit [NewNode "n" 0 0] 0
           (mkNode "n" 0 (Some 0) [0] (Some 0) 0 0 0 0 ∅) eq_refl).
Defined.



(** ** What a call leaves alone *)

Ltac node_lookup Hlen :=
  simpl;
  rewrite ?list_lookup_insert_eq by exact Hlen;
  rewrite ?list_lookup_insert_ne by congruence;
  rewrite ?lookup_app_l by exact Hlen.

(** X17: a call on one node, the construction of a node, and what happens
    to groups outside the nodes leave every other node exactly as it
    was. *)
Theorem calls_leave_other_nodes w o i n :
  nodes w !! i = Some n →
  target o ≠ Some i →
  nodes (step w o) !! i = Some n.
Proof.
  intros Hi Hother.
  assert (i < length (nodes w)) as Hlen by by eapply lookup_lt_Some.
  destruct o; simpl in Hother;
    try (rewrite ?step_NewNode, ?step_NewNodeDefaultContext;
         unfold new_Node_default_context, bind, make_shared;
         rewrite new_Node_eq; by node_lookup Hlen);
    unfold_call; simpl; repeat (case_match; simplify_eq/=);
    by node_lookup Hlen.
Qed.

Lemma calls_leave_other_nodes_witness :
  nodes (step two_nodes (CreateClient 1 "add_two_ints" None)) !! 0
  = Some (mkNode "a" 0 (Some 0) [0] (Some 0) 0 0 0 0 ∅).
Proof.
  apply (calls_leave_other_nodes two_nodes
           (CreateClient 1 "add_two_ints" None) 0).
  - by vm_compute.
  - discriminate.
Defined.

(** X18: the parameter calls and the other calls do not touch each other's
    state: a parameter call leaves the callback groups, and each node's
    registry, default group and counters as they were, and every other
    call leaves each node's parameters as they were. *)
Theorem parameter_calls_are_separate w o i n :
  nodes w !! i = Some n →
  ∃ n', nodes (step w o) !! i = Some n'
        ∧ if is_parameter_call o
          then groups (step w o) = groups w
               ∧ callback_groups_ n' = callback_groups_ n
               ∧ default_callback_group_ n' = default_callback_group_ n
               ∧ counters n' = counters n
          else parameters_ n' = parameters_ n.
Proof.
  intros Hi.
  assert (i < length (nodes w)) as Hlen by by eapply lookup_lt_Some.
  destruct o; simpl is_parameter_call;
    try (rewrite ?step_NewNode, ?step_NewNodeDefaultContext;
         unfold new_Node_default_context, bind, make_shared;
         rewrite new_Node_eq; node_lookup Hlen; by eexists);
    try (destruct (decide (i = self)) as [->|Hne]);
    unfold_call; simpl; rewrite ?Hi; simpl;
    repeat (case_match; simplify_eq/=);
    node_lookup Hlen; by eexists.
Qed.

Lemma parameter_calls_are_separate_witness :
  ∃ n', nodes (step one_node
                 (SetParameters 0 [mkRclParameter "p" (IntegerValue 5)])) !! 0
        = Some n'
        ∧ groups (step one_node
                    (SetParameters 0 [mkRclParameter "p" (IntegerValue 5)]))
          = groups one_node
        ∧ callback_groups_ n' = [0]
        ∧ default_callback_group_ n' = Some 0
        ∧ counters n' = (0, 0, 0, 0)%Z.
Proof.
  apply (parameter_calls_are_separate one_node
           (SetParameters 0 [mkRclParameter "p" (IntegerValue 5)]) 0
           (mkNode "n" 0 (Some 0) [0] (Some 0) 0 0 0 0 ∅)).
  by vm_compute.
Defined.

(** X19: no call removes a node, changes the default group a node holds,
    or removes or reorders an entry of a node's registry: after every
    program the registry is the old one with entries appended. *)
Theorem registry_is_append_only program w i n :
  nodes w !! i = Some n →
  ∃ n' appended,
    nodes (run program w) !! i = Some n'
    ∧ default_callback_group_ n' = default_callback_group_ n
    ∧ callback_groups_ n' = callback_groups_ n ++ appended.
Proof. apply node_run. Qed.

Lemma registry_is_append_only_witness :
  ∃ n' appended,
    nodes (run [CreateCallbackGroup 1 Reentrant; ReleaseGroup 2;
                CreateCallbackGroup 1 MutuallyExclusive] two_nodes) !! 1
    = Some n'
    ∧ default_callback_group_ n' = Some 1
    ∧ callback_groups_ n' = [1] ++ appended.
Proof.
  apply (registry_is_append_only
           [CreateCallbackGroup 1 Reentrant; ReleaseGroup 2;
            CreateCallbackGroup 1 MutuallyExclusive] two_nodes 1
           (mkNode "b" 0 (Some 1) [1] (Some 1) 0 0 0 0 ∅)).
  by vm_compute.
Defined.

(** X20: in every world a program reaches, [create_callback_group] returns
    a group that was not live and that no node had in its registry; the
    group has the requested type and no entities, and is appended to the
    registry of this node; the other groups and the rest of the node stay
    as they were. *)
Theorem create_callback_group_fresh program self n group_type :
  let w := run program initial in
  nodes w !! self = Some n →
  ∃ g w',
    create_callback_group self group_type w = (Returns g, w')
    ∧ groups w !! g = None
    ∧ (∀ i ni, nodes w !! i = Some ni → g ∉ callback_groups_ ni)
    ∧ groups w' = <[g := new_CallbackGroup group_type]> (groups w)
    ∧ nodes w'
      = <[self := with_callback_groups_ (callback_groups_ n ++ [g]) n]> (nodes w).
Proof.
  intros w Hn. pose proof (wf_reachable program) as Hwf. fold w in Hwf.
  eexists _, _. split; [by apply create_callback_group_eq|].
  simpl. split_and!; [| |done..].
  - apply eq_None_not_Some. intros Hlive.
    apply (wf_groups_below _ Hwf) in Hlive. lia.
  - intros i ni Hi Hin.
    pose proof (wf_registry_below _ Hwf i ni _ Hi Hin). lia.
Qed.

Lemma create_callback_group_fresh_witness :
  ∃ g w',
    create_callback_group 0 Reentrant one_node = (Returns g, w')
    ∧ groups one_node !! g = None
    ∧ (∀ i ni, nodes one_node !! i = Some ni → g ∉ callback_groups_ ni)
    ∧ groups w' = <[g := new_CallbackGroup Reentrant]> (groups one_node)
    ∧ nodes w'
      = <[0 := with_callback_groups_ ([0] ++ [g])
                 (mkNode "n" 0 (Some 0) [0] (Some 0) 0 0 0 0 ∅)]>
          (nodes one_node).
Proof.
  apply (create_callback_group_fresh [NewNode "n" 0 0] 0
           (mkNode "n" 0 (Some 0) [0] (Some 0) 0 0 0 0 ∅) Reentrant eq_refl).
Defined.

(** ** Entities and groups *)

Lemma entities_new group_type : entities (new_CallbackGroup group_type) = [].
Proof. done. Qed.

Lemma entities_add_subscription e g :
  entities (add_subscription e g) ≡ₚ e :: entities g.
Proof.
  unfold entities. simpl. rewrite <- !app_assoc. simpl.
  by rewrite <- Permutation_middle.
Qed.

Lemma entities_add_timer e g : entities (add_timer e g) ≡ₚ e :: entities g.
Proof.
  unfold entities. simpl. rewrite <- !app_assoc. simpl.
  by rewrite <- !Permutation_middle.
Qed.

Lemma entities_add_service e g : entities (add_service e g) ≡ₚ e :: entities g.
Proof.
  unfold entities. simpl. rewrite <- !app_assoc. simpl.
  by rewrite <- !Permutation_middle.
Qed.

Lemma entities_add_client e g : entities (add_client e g) ≡ₚ e :: entities g.
Proof.
  unfold entities. simpl. rewrite !app_assoc.
  by rewrite <- Permutation_cons_append.
Qed.

Lemma groups_step_refl w : groups_step w w.
Proof. destruct w as [r a G N]. by apply (gs_same (mkWorld r a G N)). Qed.

Ltac groups_leaf :=
  first
    [ apply groups_step_refl
    | apply gs_same; simpl; lia
    | apply gs_new; simpl; lia
    | apply gs_delete
    | eapply gs_bind;
      [ eassumption
      | first [ apply entities_add_subscription | apply entities_add_timer
              | apply entities_add_service | apply entities_add_client ] ] ].

Lemma step_groups_step w o : groups_step w (step w o).
Proof.
  destruct o;
    try (rewrite ?step_NewNode, ?step_NewNodeDefaultContext;
         unfold new_Node_default_context, bind, make_shared;
         rewrite new_Node_eq; simpl; groups_leaf);
    unfold_call; simpl; repeat (case_match; simplify_eq/=); groups_leaf.
Qed.

Lemma entities_once_initial : entities_once initial.
Proof.
  split; simpl.
  - intros a g e Ha. by rewrite lookup_empty in Ha.
  - intros a g Ha. by rewrite lookup_empty in Ha.
  - intros a1 a2 g1 g2 e Ha. by rewrite lookup_empty in Ha.
Qed.

Lemma entities_once_step w w' :
  entities_once w → groups_step w w' → entities_once w'.
Proof.
  intros Hw Hstep.
  destruct Hstep as [r a N Ha | r a N b ty Ha | r N group
                    | r N group g g' Hg Hperm].
  - split; simpl; [|apply Hw..].
    intros b g e Hb He. pose proof (eo_below w Hw b g e Hb He). lia.
  - assert (∀ c g, <[b := new_CallbackGroup ty]> (groups w) !! c = Some g →
              ∀ e, e ∈ entities g → groups w !! c = Some g) as Hold.
    { intros c g Hc e He. apply lookup_insert_Some in Hc as [[_ <-]|[_ Hc]]; [|done].
      rewrite entities_new in He. by apply elem_of_nil in He. }
    split; simpl.
    + intros c g e Hc He. pose proof (eo_below w Hw c g e (Hold c g Hc e He) He). lia.
    + intros c g Hc. apply lookup_insert_Some in Hc as [[_ <-]|[_ Hc]].
      * rewrite entities_new. constructor.
      * by eapply (eo_NoDup w Hw).
    + intros a1 a2 g1 g2 e H1 H2 He1 He2.
      eapply (eo_one_group w Hw); [by eapply Hold|by eapply Hold|done..].
  - split; simpl.
    + intros c g e Hc He. apply lookup_delete_Some in Hc as [_ Hc].
      by eapply (eo_below w Hw).
    + intros c g Hc. apply lookup_delete_Some in Hc as [_ Hc].
      by eapply (eo_NoDup w Hw).
    + intros a1 a2 g1 g2 e H1 H2 He1 He2.
      apply lookup_delete_Some in H1 as [_ H1].
      apply lookup_delete_Some in H2 as [_ H2].
      by eapply (eo_one_group w Hw).
  - assert (∀ c x e, <[group := g']> (groups w) !! c = Some x → e ∈ entities x →
              (c = group ∧ e = next_addr w) ∨
              ∃ y, groups w !! c = Some y ∧ e ∈ entities y) as Hcases.
    { intros c x e Hc He. apply lookup_insert_Some in Hc as [[<- <-]|[_ Hc]].
      - rewrite Hperm in He. apply elem_of_cons in He as [->|He]; [by left|].
        right. eauto.
      - right. eauto. }
    assert (∀ c y, groups w !! c = Some y → next_addr w ∉ entities y) as Hfresh.
    { intros c y Hc He. pose proof (eo_below w Hw c y _ Hc He). lia. }
    split; simpl.
    + intros c x e Hc He.
      destruct (Hcases c x e Hc He) as [[_ ->]|(y & Hy & Hey)]; [lia|].
      pose proof (eo_below w Hw c y e Hy Hey). lia.
    + intros c x Hc. apply lookup_insert_Some in Hc as [[<- <-]|[_ Hc]].
      * rewrite Hperm. constructor; [by eapply Hfresh|by eapply (eo_NoDup w Hw)].
      * by eapply (eo_NoDup w Hw).
    + intros a1 a2 g1 g2 e H1 H2 He1 He2.
      destruct (Hcases a1 g1 e H1 He1) as [[Ha1 Heq1]|(y1 & Hy1 & Hey1)];
        destruct (Hcases a2 g2 e H2 He2) as [[Ha2 Heq2]|(y2 & Hy2 & Hey2)].
      * congruence.
      * subst e. by destruct (Hfresh a2 y2 Hy2).
      * subst e. by destruct (Hfresh a1 y1 Hy1).
      * by eapply (eo_one_group w Hw).
Qed.

Lemma entities_once_run program w : entities_once w → entities_once (run program w).
Proof.
  revert w. induction program as [|o program IH]; intros w Hw; [done|].
  simpl. apply IH. eapply entities_once_step; [done|apply step_groups_step].
Qed.

(** X21: in every world a program reaches, each entity is referred to by
    at most one callback group, and by that group once: it is in one of
    the four sets of the group, one time. *)
Theorem every_entity_in_one_group program :
  (∀ a g, groups (run program initial) !! a = Some g → NoDup (entities g))
  ∧ (∀ a1 a2 g1 g2 e,
       groups (run program initial) !! a1 = Some g1 →
       groups (run program initial) !! a2 = Some g2 →
       e ∈ entities g1 → e ∈ entities g2 → a1 = a2).
Proof.
  pose proof (entities_once_run program initial entities_once_initial) as Hw.
  split; [apply (eo_NoDup _ Hw)|apply (eo_one_group _ Hw)].
Qed.

Lemma every_entity_in_one_group_witness :
  NoDup (entities (mkCallbackGroup MutuallyExclusive [2; 4] [] [] [3])).
Proof.
  apply (proj1 (every_entity_in_one_group
                  [NewNode "n" 0 0; CreateCallbackGroup 0 Reentrant;
                   CreateSubscription 0 "chatter" 10 None;
                   CreateClient 0 "add_two_ints" None;
                   CreateSubscription 0 "chatter" 10 (Some 0)]) 0).
  by vm_compute.
Defined.

(** ** Counters *)

(** X22: the counters of a node change only when a creation call for a
    subscription, a timer, a service or a client made on that node
    returns, and then only the counter of that kind, by one [size_t]
    increment; a call that throws, a call on another node,
    [create_publisher], [create_callback_group] and the parameter calls
    leave the four counters as they were. *)
Theorem counters_count_creations w o i n :
  nodes w !! i = Some n →
  ∃ n', nodes (step w o) !! i = Some n'
        ∧ counters n' = if returns (call o w).1
                        then counted o i (counters n)
                        else counters n.
Proof.
  intros Hi.
  assert (i < length (nodes w)) as Hlen by by eapply lookup_lt_Some.
  destruct o; unfold counted;
    try (rewrite ?step_NewNode, ?step_NewNodeDefaultContext;
         unfold call, discard, new_Node_default_context, bind, make_shared;
         rewrite new_Node_eq; node_lookup Hlen; by eexists);
    try (destruct (decide (self = i)) as [->|Hne];
         [rewrite ?bool_decide_eq_true_2 by done
         |rewrite ?bool_decide_eq_false_2 by done]);
    unfold_call; simpl; rewrite ?Hi; simpl;
    repeat (case_match; simplify_eq/=);
    node_lookup Hlen; by eexists.
Qed.

Lemma counters_count_creations_witness :
  ∃ n', nodes (step node_and_foreign_group
                 (CreateService 0 "add_two_ints" (Some 1))) !! 0 = Some n'
        ∧ counters n' = (0, 0, 0, 0)%Z.
Proof.
  apply (counters_count_creations node_and_foreign_group
           (CreateService 0 "add_two_ints" (Some 1)) 0
           (mkNode "n" 0 (Some 0) [0] (Some 0) 0 0 0 0 ∅)).
  by vm_compute.
Defined.
